(** * dettrace: the process scheduler (src/scheduler.cpp)

    A shallow embedding of [class scheduler] and a verification of its
    queueing discipline.  The scheduler keeps four collections of process
    identifiers: the set of processes running in parallel, the FIFO queue of
    runnable processes, the FIFO queue of blocked processes and the set of
    finished processes.

    - [std::set<pid_t>] is a [gset Z];
    - [std::queue<pid_t>] is a [list Z] whose head is the front of the queue;
      [front()] and [pop()] on an empty queue have no defined behaviour in
      C++ and are given the outcome [Undefined] here;
    - [throw runtime_error(...)] is the outcome [Throws];
    - member functions are computations in the monad [M], which threads the
      object through the calls. *)

From Stdlib Require Import ZArith Lia.
From stdpp Require Import base decidable option list sorting gmap sets strings.

Local Open Scope Z_scope.
Set Warnings "-clear-no-such-hyp".

(** ** Data model *)

Abbreviation pid_t := Z (only parsing).
Abbreviation queue := (list Z) (only parsing).

(** [std::queue<pid_t>]: the operations the scheduler uses. *)
Module Queue.

Definition empty (q : queue) : bool :=
  match q with [] => true | _ :: _ => false end.

(** [front()]: [None] stands for the call on an empty queue. *)
Definition front (q : queue) : option pid_t :=
  match q with [] => None | x :: _ => Some x end.

(** [pop()]: [None] stands for the call on an empty queue. *)
Definition pop (q : queue) : option queue :=
  match q with [] => None | _ :: q' => Some q' end.

Definition push (x : pid_t) (q : queue) : queue := q ++ [x].

Definition size (q : queue) : nat := length q.

End Queue.

(** The logger collaborator: every [log.writeToLog] call appends one line.
    A line records the importance, the colour given to [makeTextColored]
    (if any), the format string and the pid argument (if any). *)
Inductive Importance : Type := info | extra.
Inductive Color : Type := blue.

Record log_line : Type := LogLine {
  importance : Importance;
  color : option Color;
  text : string;
  arg : option pid_t
}.

(** Modelled from the spec: the class declaration (scheduler.hpp) is not part
    of the sources; the members are the ones scheduler.cpp uses, with the
    types its calls require ([insert]/[find]/[erase] on the two sets of
    section 3 of the specification, [front]/[pop]/[push] on the two FIFO
    queues, and the [logger&] the constructor stores). *)
Record scheduler : Type := mkScheduler {
  log : list log_line;
  startingPid : pid_t;
  parallelProcesses : gset Z;
  runnableQueue : list Z;
  blockedQueue : list Z;
  finishedProcesses : gset Z
}.

Definition set_log (l : list log_line) (s : scheduler) : scheduler :=
  mkScheduler l (startingPid s) (parallelProcesses s) (runnableQueue s)
    (blockedQueue s) (finishedProcesses s).
Definition set_parallelProcesses (p : gset Z) (s : scheduler) : scheduler :=
  mkScheduler (log s) (startingPid s) p (runnableQueue s) (blockedQueue s)
    (finishedProcesses s).
Definition set_runnableQueue (q : queue) (s : scheduler) : scheduler :=
  mkScheduler (log s) (startingPid s) (parallelProcesses s) q (blockedQueue s)
    (finishedProcesses s).
Definition set_blockedQueue (q : queue) (s : scheduler) : scheduler :=
  mkScheduler (log s) (startingPid s) (parallelProcesses s) (runnableQueue s) q
    (finishedProcesses s).
Definition set_finishedProcesses (f : gset Z) (s : scheduler) : scheduler :=
  mkScheduler (log s) (startingPid s) (parallelProcesses s) (runnableQueue s)
    (blockedQueue s) f.

(** ** The monad of member functions *)

Inductive outcome (A : Type) : Type :=
| Returns (a : A) (s : scheduler)      (* normal return, object afterwards *)
| Throws (what : string) (s : scheduler) (* runtime_error, object at the throw *)
| Undefined.                           (* front()/pop() of an empty queue *)
Arguments Returns {A} a s.
Arguments Throws {A} what s.
Arguments Undefined {A}.

Definition M (A : Type) : Type := scheduler → outcome A.

#[global] Instance M_ret : MRet M := λ A a s, Returns a s.
#[global] Instance M_bind : MBind M := λ A B f m s,
  match m s with
  | Returns a s' => f a s'
  | Throws what s' => Throws what s'
  | Undefined => Undefined
  end.

Definition gets {A} (f : scheduler → A) : M A := λ s, Returns (f s) s.
Definition modify (f : scheduler → scheduler) : M unit := λ s, Returns tt (f s).
Definition throw_runtime_error {A} (what : string) : M A := λ s, Throws what s.
Definition defined {A} (o : option A) : M A := λ s,
  match o with Some a => Returns a s | None => Undefined end.

Definition writeToLog (i : Importance) (c : option Color) (msg : string)
    (a : option pid_t) : M unit :=
  modify (λ s, set_log (log s ++ [LogLine i c msg a]) s).

(** The queue members, operated in place. *)
Definition runnable_empty : M bool := gets (λ s, Queue.empty (runnableQueue s)).
Definition runnable_front : M pid_t :=
  q ← gets runnableQueue; defined (Queue.front q).
Definition runnable_pop : M unit :=
  q ← gets runnableQueue; q' ← defined (Queue.pop q); modify (set_runnableQueue q').
Definition runnable_push (pid : pid_t) : M unit :=
  modify (λ s, set_runnableQueue (Queue.push pid (runnableQueue s)) s).

Definition blocked_empty : M bool := gets (λ s, Queue.empty (blockedQueue s)).
Definition blocked_front : M pid_t :=
  q ← gets blockedQueue; defined (Queue.front q).
Definition blocked_pop : M unit :=
  q ← gets blockedQueue; q' ← defined (Queue.pop q); modify (set_blockedQueue q').
Definition blocked_push (pid : pid_t) : M unit :=
  modify (λ s, set_blockedQueue (Queue.push pid (blockedQueue s)) s).

(** Conversion of a [size_t] to [int] (two's complement, 32 bits). *)
Definition to_int (z : Z) : Z := (z + 2 ^ 31) mod 2 ^ 32 - 2 ^ 31.

(** ** The member functions *)

(** Constructor: the starting pid is seeded into the parallel set. *)
Definition scheduler_ctor (startingPid : pid_t) (l : list log_line) : scheduler :=
  mkScheduler l startingPid {[startingPid]} [] [] ∅.

Definition getStartingPid : M pid_t := gets startingPid.

Definition isInParallel (process : pid_t) : M bool :=
  gets (λ s, bool_decide (process ∈ parallelProcesses s)).

Definition isFinished (process : pid_t) : M bool :=
  gets (λ s, bool_decide (process ∈ finishedProcesses s)).

Definition emptyScheduler : M bool :=
  gets (λ s, Queue.empty (runnableQueue s) && Queue.empty (blockedQueue s)
             && bool_decide (parallelProcesses s = ∅)).

Definition numberBlocked : M Z :=
  gets (λ s, to_int (Z.of_nat (Queue.size (blockedQueue s)))).

Definition numberRunnable : M Z :=
  gets (λ s, to_int (Z.of_nat (Queue.size (runnableQueue s)))).

Definition getNextRunnable : M pid_t :=
  e ← runnable_empty;
  if negb e then runnable_front else mret (-1).

Definition getNextBlocked : M pid_t :=
  e ← blocked_empty;
  if negb e then blocked_front else mret (-1).

Definition resumeRetry (pid : pid_t) : M unit :=
  frontPid ← blocked_front;
  if decide (frontPid ≠ pid)
  then throw_runtime_error "trying to resume retry with wrong pid"
  else blocked_pop;; blocked_push pid.

(** *** The loops of [isAlive] and [removeFromScheduler]

    Each loop runs on the queue member and a local temporary queue; it is a
    recursion on the content of the queue member and returns the content
    left in the member, the temporary and whether the loop left through
    [break]. *)

(** [isAlive], first loop (blocked queue): the front is popped, compared,
    and on a mismatch the queue is popped once more before the first front
    is pushed on the temporary. *)
Fixpoint isAlive_blocked_loop (pid : pid_t) (blockedQueue blockedTemp : queue)
    : option (queue * queue * bool) :=
  match blockedQueue with
  | [] => Some ([], blockedTemp, false)            (* loop condition fails *)
  | frontPid :: q1 =>                               (* front(); pop() *)
      if decide (frontPid = pid) then Some (q1, blockedTemp, true)   (* break *)
      else match q1 with                            (* pop() again *)
           | [] => None                             (* ... of an empty queue *)
           | _ :: q2 => isAlive_blocked_loop pid q2 (Queue.push frontPid blockedTemp)
           end
  end.

(** [isAlive], third loop (runnable queue): the front is compared before
    anything is popped. *)
Fixpoint isAlive_runnable_loop (pid : pid_t) (runnableQueue runnableTemp : queue)
    : queue * queue * bool :=
  match runnableQueue with
  | [] => ([], runnableTemp, false)
  | frontPid :: q1 =>                               (* front() *)
      if decide (frontPid = pid) then (runnableQueue, runnableTemp, true) (* break *)
      else isAlive_runnable_loop pid q1 (Queue.push frontPid runnableTemp)
                                                    (* push(frontPid); pop() *)
  end.

(** [removeFromScheduler], first and third loops: the front is popped, then
    compared, and pushed on the temporary on a mismatch. *)
Fixpoint remove_loop (pid : pid_t) (q temp : queue) : queue * queue * bool :=
  match q with
  | [] => ([], temp, false)
  | frontPid :: q1 =>                               (* front(); pop() *)
      if decide (frontPid = pid) then (q1, temp, true)               (* break *)
      else remove_loop pid q1 (Queue.push frontPid temp)
  end.

(** The loops that move what is left of a queue onto the temporary. *)
Fixpoint drain_loop (q temp : queue) : queue :=
  match q with
  | [] => temp
  | frontPid :: q1 => drain_loop q1 (Queue.push frontPid temp)
  end.

Definition when (b : bool) (m : M unit) : M unit := if b then m else mret tt.

Definition isAlive (pid : pid_t) : M bool :=
  inParallel ← gets (λ s, bool_decide (pid ∈ parallelProcesses s));
  if inParallel : bool then
    writeToLog info (Some blue) "Process [%d] is in parallelProcesses\n" (Some pid);;
    mret true
  else
    bq ← gets blockedQueue;
    '(bq1, blockedTemp, hitBlocked) ← defined (isAlive_blocked_loop pid bq []);
    when hitBlocked
      (writeToLog info (Some blue) "Process [%d] is in blockedQueue\n" (Some pid));;
    modify (set_blockedQueue (drain_loop bq1 blockedTemp));;
    rq ← gets runnableQueue;
    let '(rq1, runnableTemp, hitRunnable) := isAlive_runnable_loop pid rq [] in
    when hitRunnable
      (writeToLog info (Some blue) "Process [%d] is in runnableQueue\n" (Some pid));;
    modify (set_runnableQueue (drain_loop rq1 runnableTemp));;
    mret (hitBlocked || hitRunnable).

Definition removeFromScheduler (pid : pid_t) : M unit :=
  inParallel ← gets (λ s, bool_decide (pid ∈ parallelProcesses s));
  when inParallel
    (writeToLog info (Some blue) "Process [%d] removed from parallelProcesses\n" (Some pid);;
     modify (λ s, set_parallelProcesses (parallelProcesses s ∖ {[pid]}) s));;
  bq ← gets blockedQueue;
  let '(bq1, blockedTemp, hitBlocked) := remove_loop pid bq [] in
  when hitBlocked
    (writeToLog info (Some blue) "Process [%d] removed from blockedQueue\n" (Some pid));;
  modify (set_blockedQueue (drain_loop bq1 blockedTemp));;
  rq ← gets runnableQueue;
  let '(rq1, runnableTemp, hitRunnable) := remove_loop pid rq [] in
  when hitRunnable
    (writeToLog info (Some blue) "Process [%d] removed from runnableQueue\n" (Some pid));;
  modify (set_runnableQueue (drain_loop rq1 runnableTemp));;
  modify (λ s, set_finishedProcesses ({[pid]} ∪ finishedProcesses s) s).

Definition preemptSyscall (pid : pid_t) : M unit :=
  frontPid ← runnable_front;
  if decide (frontPid ≠ pid)
  then throw_runtime_error "trying to preempt wrong pid!"
  else runnable_pop;; blocked_push pid.

Definition resumeParallel (pid : pid_t) : M unit :=
  frontBlocked ← blocked_front;
  frontRunnable ← runnable_front;
  (if decide (frontBlocked = pid) then blocked_pop
   else if decide (frontRunnable = pid) then runnable_pop
   else throw_runtime_error "trying to resume pid that is not front of either queue");;
  modify (λ s, set_parallelProcesses ({[pid]} ∪ parallelProcesses s) s).

Definition addToParallelSet (newProcess : pid_t) : M unit :=
  modify (λ s, set_parallelProcesses ({[newProcess]} ∪ parallelProcesses s) s).

Definition addToRunnableQueue (pid : pid_t) : M unit :=
  modify (λ s, set_parallelProcesses (parallelProcesses s ∖ {[pid]}) s);;
  runnable_push pid.

(** [printProcesses]: the loops over the copies of the queues. *)
Fixpoint print_queue (copy : queue) : M unit :=
  match copy with
  | [] => mret tt
  | pid :: copy' =>
      writeToLog extra None "Pid [%d]\n" (Some pid);; print_queue copy'
  end.

Definition printProcesses : M unit :=
  writeToLog extra None "Printing parallelProcesses set\n" None;;
  ps ← gets (λ s, merge_sort Z.le (elements (parallelProcesses s)));
  print_queue ps;;
  writeToLog extra None "Printing runnableQueue\n" None;;
  runnableCopy ← gets runnableQueue;
  print_queue runnableCopy;;
  writeToLog extra None "Printing blockedQueue\n" None;;
  blockedCopy ← gets blockedQueue;
  print_queue blockedCopy.

(** ** Sequences of transitions *)

(** The six transition operations of the scheduler. *)
Inductive transition : Type :=
| AddToParallelSet (pid : pid_t)
| AddToRunnableQueue (pid : pid_t)
| PreemptSyscall (pid : pid_t)
| ResumeRetry (pid : pid_t)
| ResumeParallel (pid : pid_t)
| RemoveFromScheduler (pid : pid_t).

Definition run (t : transition) : M unit :=
  match t with
  | AddToParallelSet pid => addToParallelSet pid
  | AddToRunnableQueue pid => addToRunnableQueue pid
  | PreemptSyscall pid => preemptSyscall pid
  | ResumeRetry pid => resumeRetry pid
  | ResumeParallel pid => resumeParallel pid
  | RemoveFromScheduler pid => removeFromScheduler pid
  end.

(** The object after a call, whether the call returned or threw (a caller
    that catches the exception goes on with the object as it was at the
    throw); nothing is known after undefined behaviour. *)
Definition after (t : transition) (s : scheduler) : option scheduler :=
  match run t s with
  | Returns _ s' => Some s'
  | Throws _ s' => Some s'
  | Undefined => None
  end.

Fixpoint after_all (ts : list transition) (s : scheduler) : option scheduler :=
  match ts with
  | [] => Some s
  | t :: ts' => match after t s with
                | Some s' => after_all ts' s'
                | None => None
                end
  end.

(** States reachable from the constructed scheduler by calls that satisfy
    a side condition [G] (on the call and the state it is made in). *)
Inductive reachable (G : transition → scheduler → Prop)
    (root : pid_t) (l0 : list log_line) : scheduler → Prop :=
| reachable_ctor : reachable G root l0 (scheduler_ctor root l0)
| reachable_step t s s' :
    reachable G root l0 s → G t s → after t s = Some s' →
    reachable G root l0 s'.

(** A pid is live when it is in one of the three scheduling collections. *)
Definition live (pid : pid_t) (s : scheduler) : Prop :=
  pid ∈ parallelProcesses s ∨ pid ∈ runnableQueue s ∨ pid ∈ blockedQueue s.

(** No pid is in two of the three scheduling collections. *)
Definition disjointness (s : scheduler) : Prop :=
  ∀ pid : pid_t,
    ¬ (pid ∈ parallelProcesses s ∧ pid ∈ runnableQueue s) ∧
    ¬ (pid ∈ parallelProcesses s ∧ pid ∈ blockedQueue s) ∧
    ¬ (pid ∈ runnableQueue s ∧ pid ∈ blockedQueue s).

(** The side condition under which the scheduler keeps its collections
    apart: a pid is added (to the parallel set or to the runnable queue)
    only while it is in neither queue. *)
Definition adds_unqueued (t : transition) (s : scheduler) : Prop :=
  match t with
  | AddToParallelSet pid | AddToRunnableQueue pid =>
      (pid ∉ runnableQueue s) ∧ (pid ∉ blockedQueue s)
  | _ => True
  end.

(** A call whose guards all passed: it returned. *)
Definition returns_normally (t : transition) (s : scheduler) : Prop :=
  ∃ s', run t s = Returns tt s'.

(** [n] rounds of: ask for the next blocked pid, retry it. *)
Fixpoint resumeRetry_rounds (n : nat) : M unit :=
  match n with
  | O => mret tt
  | S n' => pid ← getNextBlocked; resumeRetry pid;; resumeRetry_rounds n'
  end.

(** What [removeFromScheduler] leaves of a queue: the scan, then the loop
    that moves the rest. *)
Definition rebuilt (pid : pid_t) (q : queue) : queue :=
  let '(q1, temp, _) := remove_loop pid q [] in drain_loop q1 temp.

(** The control loop's protocol: ask for the next pid of a queue, then apply
    a transition to the pid that was answered. *)
Definition preemptNextRunnable : M unit :=
  pid ← getNextRunnable; preemptSyscall pid.

Definition resumeParallelNextBlocked : M unit :=
  pid ← getNextBlocked; resumeParallel pid.

(** A scheduler with one parallel, two runnable and two blocked processes,
    used to instantiate the statements below. *)
Definition sample : scheduler := mkScheduler [] 1 {[1]} [2; 3] [4; 5] ∅.

(** The transitions guarded by a queue front. *)
Definition front_guarded (t : transition) : Prop :=
  match t with
  | PreemptSyscall _ | ResumeRetry _ | ResumeParallel _ => True
  | _ => False
  end.

(** The line [printProcesses] writes for a pid. *)
Definition pid_line (pid : pid_t) : log_line :=
  LogLine extra None "Pid [%d]\n" (Some pid).

(** How many times a pid occurs in a queue. *)
Definition occurrences (pid : pid_t) (q : queue) : nat :=
  length (filter (λ x, x = pid) q).

(** A scheduler whose runnable queue holds pid 2 twice and pid 3 once. *)
Definition sample_twice : scheduler := mkScheduler [] 1 {[1]} [2; 3; 2] [4] ∅.

(** * Properties *)

Ltac unfold_M :=
  unfold resumeRetry, preemptSyscall, resumeParallel, addToParallelSet,
    addToRunnableQueue, getNextBlocked, getNextRunnable, isInParallel,
    isFinished, emptyScheduler, numberBlocked, numberRunnable, getStartingPid,
    runnable_front, runnable_pop, runnable_push, runnable_empty,
    blocked_front, blocked_pop, blocked_push, blocked_empty, writeToLog, when,
    throw_runtime_error, defined, modify, gets, mbind, M_bind, mret, M_ret.

Lemma drain_loop_app (q temp : queue) : drain_loop q temp = temp ++ q.
Proof.
  revert temp. induction q as [|x q IH]; intros temp; simpl.
  - by rewrite app_nil_r.
  - rewrite IH. unfold Queue.push. by rewrite <- app_assoc.
Qed.

Lemma remove_loop_absent (pid : pid_t) (q temp : queue) :
  pid ∉ q → remove_loop pid q temp = ([], temp ++ q, false).
Proof.
  revert temp. induction q as [|x q IH]; intros temp Hn; simpl.
  - by rewrite app_nil_r.
  - apply not_elem_of_cons in Hn as [Hx Hq].
    destruct (decide (x = pid)) as [->|_]; [done|].
    rewrite IH by done. unfold Queue.push. by rewrite <- app_assoc.
Qed.

Lemma remove_loop_first (pid : pid_t) (l1 l2 temp : queue) :
  pid ∉ l1 → remove_loop pid (l1 ++ pid :: l2) temp = (l2, temp ++ l1, true).
Proof.
  revert temp. induction l1 as [|x l1 IH]; intros temp Hn; simpl.
  - rewrite decide_True by done. by rewrite app_nil_r.
  - apply not_elem_of_cons in Hn as [Hx Hq].
    destruct (decide (x = pid)) as [->|_]; [done|].
    rewrite IH by done. unfold Queue.push. by rewrite <- app_assoc.
Qed.

Lemma rebuilt_absent (pid : pid_t) (q : queue) : pid ∉ q → rebuilt pid q = q.
Proof.
  intros Hn. unfold rebuilt. rewrite remove_loop_absent by done.
  by rewrite drain_loop_app, app_nil_r.
Qed.

Lemma rebuilt_first (pid : pid_t) (l1 l2 : queue) :
  pid ∉ l1 → rebuilt pid (l1 ++ pid :: l2) = l1 ++ l2.
Proof.
  intros Hn. unfold rebuilt. rewrite remove_loop_first by done.
  by rewrite drain_loop_app.
Qed.

Lemma rebuilt_cases (pid : pid_t) (q : queue) :
  ((pid ∉ q) ∧ rebuilt pid q = q) ∨
  (∃ l1 l2, q = l1 ++ pid :: l2 ∧ (pid ∉ l1) ∧ rebuilt pid q = l1 ++ l2).
Proof.
  induction q as [|x q IH].
  - left. split; [set_solver|done].
  - destruct (decide (x = pid)) as [->|Hx].
    + right. exists [], q. split_and!; [done|set_solver|].
      apply (rebuilt_first pid [] q). set_solver.
    + destruct IH as [[Hn _]|(l1 & l2 & -> & Hn & _)].
      * left. assert (pid ∉ x :: q) by set_solver.
        split; [done|by apply rebuilt_absent].
      * right. exists (x :: l1), l2.
        assert (pid ∉ x :: l1) by set_solver.
        split_and!; [done|done|].
        by apply (rebuilt_first pid (x :: l1) l2).
Qed.

Lemma rebuilt_sublist (pid : pid_t) (q : queue) : rebuilt pid q `sublist_of` q.
Proof.
  destruct (rebuilt_cases pid q) as [[_ ->]|(l1 & l2 & -> & _ & ->)]; [done|].
  apply sublist_app; [done|]. by apply sublist_cons.
Qed.

Lemma rebuilt_NoDup_gone (pid : pid_t) (q : queue) :
  NoDup q → pid ∉ rebuilt pid q.
Proof.
  intros Hd.
  destruct (rebuilt_cases pid q) as [[Hn ->]|(l1 & l2 & -> & Hn & ->)]; [done|].
  apply NoDup_app in Hd as (_ & Hd1 & Hd2). apply NoDup_cons in Hd2 as [Hd2 _].
  set_solver.
Qed.

(** *** [removeFromScheduler] *)

Lemma removeFromScheduler_returns (pid : pid_t) (s : scheduler) :
  ∃ l', removeFromScheduler pid s =
        Returns tt (mkScheduler l' (startingPid s)
                      (parallelProcesses s ∖ {[pid]})
                      (rebuilt pid (runnableQueue s))
                      (rebuilt pid (blockedQueue s))
                      ({[pid]} ∪ finishedProcesses s)).
Proof.
  unfold removeFromScheduler, rebuilt. unfold_M.
  destruct (bool_decide_reflect (pid ∈ parallelProcesses s)) as [Hin|Hout];
    simpl;
    repeat (match goal with
            | |- context [remove_loop ?p ?q ?t] =>
                destruct (remove_loop p q t) as [[? ?] [|]]
            end; simpl);
    try (eexists; reflexivity).
  all: replace (parallelProcesses s ∖ {[pid]}) with (parallelProcesses s)
         by set_solver.
  all: eexists; reflexivity.
Qed.

(** *** The three transitions guarded by a queue front *)

(** Evaluate a member function once the fronts of the queues are known. *)
Ltac eval_M :=
  unfold_M;
  repeat first
    [ progress simpl
    | match goal with
      | H : blockedQueue ?s = _ |- context [blockedQueue ?s] => rewrite H
      | H : runnableQueue ?s = _ |- context [runnableQueue ?s] => rewrite H
      | |- context [decide (?x ≠ ?x)] =>
          destruct (decide (x ≠ x)) as [?|_]; [done|]
      end
    | rewrite decide_True by done
    | rewrite decide_False by done ].

Lemma resumeRetry_front (pid : pid_t) (q : queue) (s : scheduler) :
  blockedQueue s = pid :: q →
  resumeRetry pid s = Returns tt (set_blockedQueue (q ++ [pid]) s).
Proof. intros Hq. by eval_M. Qed.

Lemma resumeRetry_wrong_front (pid frontPid : pid_t) (q : queue) (s : scheduler) :
  blockedQueue s = frontPid :: q → frontPid ≠ pid →
  resumeRetry pid s = Throws "trying to resume retry with wrong pid" s.
Proof. intros Hq Hne. by eval_M. Qed.

Lemma resumeRetry_undefined (pid : pid_t) (s : scheduler) :
  resumeRetry pid s = Undefined ↔ blockedQueue s = [].
Proof.
  destruct (blockedQueue s) as [|f q] eqn:Hq.
  - by eval_M.
  - destruct (decide (f = pid)) as [->|Hne].
    + by rewrite (resumeRetry_front pid q s).
    + by rewrite (resumeRetry_wrong_front pid f q s).
Qed.

Lemma preemptSyscall_front (pid : pid_t) (q : queue) (s : scheduler) :
  runnableQueue s = pid :: q →
  preemptSyscall pid s =
    Returns tt (set_blockedQueue (blockedQueue s ++ [pid]) (set_runnableQueue q s)).
Proof. intros Hq. by eval_M. Qed.

Lemma preemptSyscall_wrong_front (pid frontPid : pid_t) (q : queue) (s : scheduler) :
  runnableQueue s = frontPid :: q → frontPid ≠ pid →
  preemptSyscall pid s = Throws "trying to preempt wrong pid!" s.
Proof. intros Hq Hne. by eval_M. Qed.

Lemma preemptSyscall_undefined (pid : pid_t) (s : scheduler) :
  preemptSyscall pid s = Undefined ↔ runnableQueue s = [].
Proof.
  destruct (runnableQueue s) as [|f q] eqn:Hq.
  - by eval_M.
  - destruct (decide (f = pid)) as [->|Hne].
    + by rewrite (preemptSyscall_front pid q s).
    + by rewrite (preemptSyscall_wrong_front pid f q s).
Qed.

Lemma resumeParallel_blocked_front (pid r : pid_t) (bq rq : queue) (s : scheduler) :
  blockedQueue s = pid :: bq → runnableQueue s = r :: rq →
  resumeParallel pid s =
    Returns tt (set_parallelProcesses ({[pid]} ∪ parallelProcesses s)
                  (set_blockedQueue bq s)).
Proof. intros Hb Hr. by eval_M. Qed.

Lemma resumeParallel_runnable_front (pid b : pid_t) (bq rq : queue) (s : scheduler) :
  blockedQueue s = b :: bq → runnableQueue s = pid :: rq → b ≠ pid →
  resumeParallel pid s =
    Returns tt (set_parallelProcesses ({[pid]} ∪ parallelProcesses s)
                  (set_runnableQueue rq s)).
Proof. intros Hb Hr Hne. by eval_M. Qed.

Lemma resumeParallel_neither_front (pid b r : pid_t) (bq rq : queue) (s : scheduler) :
  blockedQueue s = b :: bq → runnableQueue s = r :: rq → b ≠ pid → r ≠ pid →
  resumeParallel pid s =
    Throws "trying to resume pid that is not front of either queue" s.
Proof. intros Hb Hr Hnb Hnr. by eval_M. Qed.

Lemma resumeParallel_undefined (pid : pid_t) (s : scheduler) :
  resumeParallel pid s = Undefined ↔ blockedQueue s = [] ∨ runnableQueue s = [].
Proof.
  destruct (blockedQueue s) as [|b bq] eqn:Hb.
  { split; [by left|]. intros _. by eval_M. }
  destruct (runnableQueue s) as [|r rq] eqn:Hr.
  { split; [by right|]. intros _. by eval_M. }
  split; [|by intros [|]].
  destruct (decide (b = pid)) as [->|Hnb].
  { by rewrite (resumeParallel_blocked_front pid r bq rq s). }
  destruct (decide (r = pid)) as [->|Hnr].
  { by rewrite (resumeParallel_runnable_front pid b bq rq s). }
  by rewrite (resumeParallel_neither_front pid b r bq rq s).
Qed.

Lemma addToParallelSet_returns (pid : pid_t) (s : scheduler) :
  addToParallelSet pid s =
    Returns tt (set_parallelProcesses ({[pid]} ∪ parallelProcesses s) s).
Proof. done. Qed.

Lemma addToRunnableQueue_returns (pid : pid_t) (s : scheduler) :
  addToRunnableQueue pid s =
    Returns tt (set_runnableQueue (runnableQueue s ++ [pid])
                  (set_parallelProcesses (parallelProcesses s ∖ {[pid]}) s)).
Proof. done. Qed.

(** [n] rounds of retrying the front of the blocked queue move its first
    [n] pids, in order, behind the others. *)
Lemma resumeRetry_rounds_rotate (l1 l2 : queue) (s : scheduler) :
  blockedQueue s = l1 ++ l2 →
  resumeRetry_rounds (length l1) s = Returns tt (set_blockedQueue (l2 ++ l1) s).
Proof.
  revert l2 s. induction l1 as [|x l1 IH]; intros l2 s Hq; simpl in *.
  - rewrite app_nil_r, <- Hq. by destruct s.
  - unfold mbind at 1, M_bind.
    assert (getNextBlocked s = Returns x s) as -> by by eval_M.
    unfold mbind, M_bind. rewrite (resumeRetry_front x (l1 ++ l2) s Hq).
    rewrite (IH (l2 ++ [x])); simpl; [|by rewrite <- app_assoc].
    by rewrite <- app_assoc.
Qed.

(** One call on the front rotates the blocked queue by one position, and as
    many rounds as the queue is long bring it back to where it was. *)
Lemma resumeRetry_rotates_and_cycles (s : scheduler) :
  (∀ pid q, blockedQueue s = pid :: q →
     resumeRetry pid s = Returns tt (set_blockedQueue (q ++ [pid]) s)) ∧
  resumeRetry_rounds (length (blockedQueue s)) s = Returns tt s.
Proof.
  split; [intros; by apply resumeRetry_front|].
  rewrite (resumeRetry_rounds_rotate (blockedQueue s) [] s) by by rewrite app_nil_r.
  by destruct s.
Qed.

(** C1 (the code departs from the claim).  The claim has [preemptSyscall]
    fail with an invariant violation whenever its pid is not the front of
    the runnable queue.  On the scheduler as constructed the runnable queue
    is empty, so no pid is its front, and the call does not throw: it reads
    [front()] of the empty queue, which is undefined. *)
Theorem preemptSyscall_empty_runnable_queue :
  runnableQueue (scheduler_ctor 100 []) = [] ∧
  preemptSyscall 100 (scheduler_ctor 100 []) = Undefined ∧
  ∀ what s', preemptSyscall 100 (scheduler_ctor 100 []) ≠ Throws what s'.
Proof. split_and!; [reflexivity..|]. intros what s'. by vm_compute. Qed.

(** C2 (the code departs from the claim).  The claim has [resumeRetry] fail
    whenever its pid is not at the front of the blocked queue.  On the
    scheduler as constructed the blocked queue is empty and the call does
    not throw: it reads [front()] of the empty queue, which is undefined. *)
Theorem resumeRetry_empty_blocked_queue :
  blockedQueue (scheduler_ctor 100 []) = [] ∧
  resumeRetry 100 (scheduler_ctor 100 []) = Undefined ∧
  ∀ what s', resumeRetry 100 (scheduler_ctor 100 []) ≠ Throws what s'.
Proof. split_and!; [reflexivity..|]. intros what s'. by vm_compute. Qed.

(** C7 (the code departs from the claim).  The claim has [resumeParallel]
    succeed when its pid is the front of the blocked queue.  After pid 100
    was made runnable and then preempted it is the only blocked process and
    the runnable queue is empty; [resumeParallel 100] then reads [front()]
    of the empty runnable queue before it looks at the blocked front, which
    is undefined. *)
Theorem resumeParallel_sole_blocked_process :
  after_all [AddToRunnableQueue 100; PreemptSyscall 100] (scheduler_ctor 100 [])
    = Some (mkScheduler [] 100 ∅ [] [100] ∅) ∧
  getNextBlocked (mkScheduler [] 100 ∅ [] [100] ∅)
    = Returns 100 (mkScheduler [] 100 ∅ [] [100] ∅) ∧
  resumeParallel 100 (mkScheduler [] 100 ∅ [] [100] ∅) = Undefined ∧
  ∀ s', resumeParallel 100 (mkScheduler [] 100 ∅ [] [100] ∅) ≠ Returns tt s'.
Proof. split_and!; [by vm_compute..|]. intros s'. by vm_compute. Qed.

(** *** [isAlive] *)

Lemma list_pair_ind (P : queue → Prop) :
  P [] → (∀ x, P [x]) → (∀ x y q, P q → P (x :: y :: q)) → ∀ q, P q.
Proof.
  intros H0 H1 H2 q.
  assert (P q ∧ ∀ x, P (x :: q)) as [? _]; [|done].
  induction q as [|y q [IH1 IH2]]; [by split|].
  split; [done|]. intros x. by apply H2.
Qed.

(** The scan of the blocked queue pops an empty queue exactly when the queue
    has an odd length and none of the pids it compares (those at the even
    positions) is the one looked for. *)
Lemma isAlive_blocked_loop_None (pid : pid_t) (q temp : queue) :
  isAlive_blocked_loop pid q temp = None ↔
  Nat.Odd (length q) ∧ ∀ (i : nat) (x : pid_t), q !! (2 * i)%nat = Some x → x ≠ pid.
Proof.
  revert temp. induction q as [|x|x y q IH] using list_pair_ind; intros temp.
  - simpl. split; [done|]. intros [[m Hm] _]. simpl in Hm. lia.
  - simpl. destruct (decide (x = pid)) as [->|Hne].
    + split; [done|]. intros [_ H]. by destruct (H 0%nat pid).
    + split; [|done]. intros _. split; [by exists 0%nat|].
      intros [|i] z Hz; simpl in Hz; [by simplify_eq|].
      by replace (i + S (i + 0))%nat with (S (i + i)) in Hz by lia.
  - simpl. destruct (decide (x = pid)) as [->|Hne].
    + split; [done|]. intros [_ H]. by destruct (H 0%nat pid).
    + rewrite IH, Nat.Odd_succ_succ. apply and_iff_compat_l. split.
      * intros H [|i] z Hz; simpl in Hz; [by simplify_eq|].
        replace (i + S (i + 0))%nat with (S (i + i)) in Hz by lia.
        simpl in Hz. apply (H i). by replace (2 * i)%nat with (i + i)%nat by lia.
      * intros H i z Hz. apply (H (S i)). simpl.
        replace (i + S (i + 0))%nat with (S (i + i)) by lia. simpl.
        by replace (2 * i)%nat with (i + i)%nat in Hz by lia.
Qed.

(** What the scan of the blocked queue keeps is a sublist of the queue. *)
Lemma isAlive_blocked_loop_sublist (pid : pid_t) (q temp q1 temp1 : queue) (hit : bool) :
  isAlive_blocked_loop pid q temp = Some (q1, temp1, hit) →
  ∃ kept, drain_loop q1 temp1 = temp ++ kept ∧ kept `sublist_of` q.
Proof.
  revert temp. induction q as [|x|x y q IH] using list_pair_ind; intros temp; simpl.
  - intros [= <- <- <-]. exists []. by rewrite drain_loop_app.
  - destruct (decide (x = pid)); [|done]. intros [= <- <- <-].
    exists []. rewrite drain_loop_app. split; [done|]. apply sublist_nil_l.
  - destruct (decide (x = pid)).
    + intros [= <- <- <-]. exists (y :: q). rewrite drain_loop_app.
      split; [done|]. by apply sublist_cons.
    + intros H. apply IH in H as (kept & -> & Hs). exists (x :: kept).
      unfold Queue.push. rewrite <- app_assoc. split; [done|].
      apply sublist_skip. by apply sublist_cons.
Qed.

(** The scan of the runnable queue loses nothing and finds the pid exactly
    when it is in the queue. *)
Lemma isAlive_runnable_loop_spec (pid : pid_t) (q temp : queue) :
  ∃ q1 temp1 hit,
    isAlive_runnable_loop pid q temp = (q1, temp1, hit) ∧
    drain_loop q1 temp1 = temp ++ q ∧ (hit = true ↔ pid ∈ q).
Proof.
  revert temp. induction q as [|x q IH]; intros temp; simpl.
  - exists [], temp, false. split_and!; [done|by rewrite app_nil_r|set_solver].
  - destruct (decide (x = pid)) as [->|Hne].
    + exists (pid :: q), temp, true. rewrite drain_loop_app. set_solver.
    + destruct (IH (Queue.push x temp)) as (q1 & temp1 & hit & -> & Hd & Hhit).
      exists q1, temp1, hit. rewrite Hd. unfold Queue.push. rewrite <- app_assoc.
      split_and!; [done|done|]. rewrite Hhit. set_solver.
Qed.

Lemma isAlive_parallel (pid : pid_t) (s : scheduler) :
  pid ∈ parallelProcesses s →
  isAlive pid s =
    Returns true
      (set_log (log s ++ [LogLine info (Some blue)
                            "Process [%d] is in parallelProcesses\n" (Some pid)]) s).
Proof.
  intros Hin. unfold isAlive. unfold_M. by rewrite bool_decide_eq_true_2.
Qed.

(** Outside the parallel set, [isAlive] answers from what its two scans hit
    and leaves in the blocked queue only what the first scan kept. *)
Lemma isAlive_queues (pid : pid_t) (s : scheduler) (bq1 blockedTemp : queue)
    (hitBlocked : bool) :
  pid ∉ parallelProcesses s →
  isAlive_blocked_loop pid (blockedQueue s) [] = Some (bq1, blockedTemp, hitBlocked) →
  ∃ l', isAlive pid s =
        Returns (hitBlocked || bool_decide (pid ∈ runnableQueue s))
          (mkScheduler l' (startingPid s) (parallelProcesses s) (runnableQueue s)
             (drain_loop bq1 blockedTemp) (finishedProcesses s)).
Proof.
  intros Hout Hloop. unfold isAlive. unfold_M.
  rewrite bool_decide_eq_false_2 by done. rewrite Hloop. simpl.
  destruct (isAlive_runnable_loop_spec pid (runnableQueue s) [])
    as (rq1 & rt & hr & Hr & Hdrain & Hhit).
  assert (bool_decide (pid ∈ runnableQueue s) = hr) as ->.
  { destruct hr; [apply bool_decide_eq_true_2; by apply Hhit|].
    apply bool_decide_eq_false_2. intros Hin. by apply Hhit in Hin. }
  destruct hitBlocked; simpl; rewrite Hr; simpl; rewrite Hdrain; simpl;
    destruct hr; simpl; eexists; reflexivity.
Qed.

Lemma isAlive_undefined (pid : pid_t) (s : scheduler) :
  isAlive pid s = Undefined ↔
  (pid ∉ parallelProcesses s) ∧ isAlive_blocked_loop pid (blockedQueue s) [] = None.
Proof.
  destruct (decide (pid ∈ parallelProcesses s)) as [Hin|Hout].
  { rewrite isAlive_parallel by done. split; [done|]. by intros [? _]. }
  destruct (isAlive_blocked_loop pid (blockedQueue s) [])
    as [[[bq1 bt] hb]|] eqn:Hloop.
  - destruct (isAlive_queues pid s bq1 bt hb Hout Hloop) as [l' ->].
    split; [done|]. by intros [_ ?].
  - split; [done|]. intros _. unfold isAlive. unfold_M.
    rewrite bool_decide_eq_false_2 by done. by rewrite Hloop.
Qed.

(** C5 (the code departs from the claim).  The claim has [isAlive] answer
    true for a pid anywhere in the blocked queue.  With pids 1 and 2 blocked
    in that order, [isAlive 2] pops 1, sees that it is not 2, pops once more
    (which discards 2 without comparing it) and answers false; the blocked
    queue is left holding 1 only. *)
Theorem isAlive_misses_blocked_pid :
  after_all [AddToRunnableQueue 1; PreemptSyscall 1; AddToParallelSet 2;
             AddToRunnableQueue 2; PreemptSyscall 2] (scheduler_ctor 1 [])
    = Some (mkScheduler [] 1 ∅ [] [1; 2] ∅) ∧
  2 ∈ blockedQueue (mkScheduler [] 1 ∅ [] [1; 2] ∅) ∧
  isAlive 2 (mkScheduler [] 1 ∅ [] [1; 2] ∅)
    = Returns false (mkScheduler [] 1 ∅ [] [1] ∅).
Proof. split_and!; [by vm_compute|set_solver|by vm_compute]. Qed.

(** C6 (the code departs from the claim).  The claim has every query leave
    the four collections as they were.  With pid 7 the only blocked
    process, [isAlive 7] pops it, finds the match and leaves the loop
    without putting it back: the call answers true and the blocked queue is
    empty afterwards. *)
Theorem isAlive_empties_blocked_queue :
  after_all [AddToRunnableQueue 7; PreemptSyscall 7] (scheduler_ctor 7 [])
    = Some (mkScheduler [] 7 ∅ [] [7] ∅) ∧
  isAlive 7 (mkScheduler [] 7 ∅ [] [7] ∅)
    = Returns true
        (mkScheduler [LogLine info (Some blue)
                        "Process [%d] is in blockedQueue\n" (Some 7)]
           7 ∅ [] [] ∅).
Proof. split; by vm_compute. Qed.

(** What does hold of [isAlive]: the parallel set, the runnable queue and
    the finished set are as before, and the blocked queue keeps a sublist of
    what it held. *)
Lemma isAlive_frame (pid : pid_t) (s s' : scheduler) (b : bool) :
  isAlive pid s = Returns b s' →
  parallelProcesses s' = parallelProcesses s ∧
  runnableQueue s' = runnableQueue s ∧
  finishedProcesses s' = finishedProcesses s ∧
  blockedQueue s' `sublist_of` blockedQueue s.
Proof.
  destruct (decide (pid ∈ parallelProcesses s)) as [Hin|Hout].
  { rewrite isAlive_parallel by done. by intros [= <- <-]. }
  destruct (isAlive_blocked_loop pid (blockedQueue s) [])
    as [[[bq1 bt] hb]|] eqn:Hloop.
  - destruct (isAlive_queues pid s bq1 bt hb Hout Hloop) as [l' ->].
    intros [= <- <-]. simpl. split_and!; [done..|].
    by apply isAlive_blocked_loop_sublist in Hloop as (kept & -> & ?).
  - assert (isAlive pid s = Undefined) as ->; [|done].
    by apply isAlive_undefined.
Qed.

(** X14.  [isAlive], unlike the insertions, cannot bring a pid into two
    collections: if the queues hold no pid twice and the three collections
    are disjoint before a call that returns, the same holds after it. *)
Lemma isAlive_keeps_apart (pid : pid_t) (s s' : scheduler) (b : bool) :
  isAlive pid s = Returns b s' →
  NoDup (runnableQueue s) ∧ NoDup (blockedQueue s) ∧ disjointness s →
  NoDup (runnableQueue s') ∧ NoDup (blockedQueue s') ∧ disjointness s'.
Proof.
  intros H (Hr & Hb & Hd). apply isAlive_frame in H as (Hp' & Hr' & _ & Hsub).
  unfold disjointness. rewrite Hp', Hr'.
  split_and!; [done|by apply (sublist_NoDup _ (blockedQueue s))|].
  intros p. specialize (Hd p).
  pose proof (λ H, elem_of_sublist _ _ p H Hsub). set_solver.
Qed.

(** The other queries return with the scheduler exactly as it was. *)
Lemma queries_leave_scheduler (pid : pid_t) (s : scheduler) :
  isInParallel pid s = Returns (bool_decide (pid ∈ parallelProcesses s)) s ∧
  isFinished pid s = Returns (bool_decide (pid ∈ finishedProcesses s)) s ∧
  numberBlocked s = Returns (to_int (Z.of_nat (length (blockedQueue s)))) s ∧
  numberRunnable s = Returns (to_int (Z.of_nat (length (runnableQueue s)))) s ∧
  getNextRunnable s = Returns (default (-1) (head (runnableQueue s))) s ∧
  getNextBlocked s = Returns (default (-1) (head (blockedQueue s))) s ∧
  emptyScheduler s =
    Returns (bool_decide (runnableQueue s = [] ∧ blockedQueue s = [] ∧
                          parallelProcesses s = ∅)) s ∧
  getStartingPid s = Returns (startingPid s) s.
Proof.
  split_and!; try done.
  - destruct (runnableQueue s) eqn:Hq; by eval_M.
  - destruct (blockedQueue s) eqn:Hq; by eval_M.
  - unfold_M. f_equal.
    destruct (runnableQueue s), (blockedQueue s); simpl; try done.
    apply bool_decide_ext. naive_solver.
Qed.

Lemma print_queue_returns (copy : queue) (s : scheduler) :
  print_queue copy s =
    Returns tt (set_log (log s ++ ((λ pid, LogLine extra None "Pid [%d]\n" (Some pid))
                                     <$> copy)) s).
Proof.
  revert s. induction copy as [|pid copy IH]; intros s; simpl.
  - unfold_M. rewrite app_nil_r. by destruct s.
  - unfold_M. rewrite IH. simpl. by rewrite <- app_assoc.
Qed.

(** The state dump writes to the log and to nothing else. *)
Lemma printProcesses_frame (s : scheduler) :
  ∃ l', printProcesses s = Returns tt (set_log (log s ++ l') s).
Proof.
  unfold printProcesses. unfold_M. simpl.
  repeat (rewrite print_queue_returns; simpl). unfold set_log. simpl.
  rewrite <- !app_assoc. eexists. reflexivity.
Qed.

(** C10.  The queue accesses of the transitions and of [isAlive] are not
    guarded: [resumeRetry] is undefined exactly on an empty blocked queue,
    [preemptSyscall] exactly on an empty runnable queue, [resumeParallel]
    exactly when either queue is empty (so also for the sole blocked process
    while nothing is runnable), and [isAlive] exactly when the pid is not in
    the parallel set and the second pop of its scan meets an empty blocked
    queue, which is when that queue has an odd length and none of the pids
    at its even positions is the one asked for.  None of these is the
    [Throws] outcome of an invariant violation. *)
Theorem unguarded_queue_accesses (pid : pid_t) (s : scheduler) :
  (resumeRetry pid s = Undefined ↔ blockedQueue s = []) ∧
  (preemptSyscall pid s = Undefined ↔ runnableQueue s = []) ∧
  (resumeParallel pid s = Undefined ↔ blockedQueue s = [] ∨ runnableQueue s = []) ∧
  resumeParallel 100 (mkScheduler [] 100 ∅ [] [100] ∅) = Undefined ∧
  (isAlive pid s = Undefined ↔
     (pid ∉ parallelProcesses s) ∧ Nat.Odd (length (blockedQueue s)) ∧
     ∀ (i : nat) (x : pid_t), blockedQueue s !! (2 * i)%nat = Some x → x ≠ pid) ∧
  isAlive 100 (mkScheduler [] 100 ∅ [] [101] ∅) = Undefined.
Proof.
  split_and!.
  - apply resumeRetry_undefined.
  - apply preemptSyscall_undefined.
  - apply resumeParallel_undefined.
  - by vm_compute.
  - rewrite isAlive_undefined. by rewrite isAlive_blocked_loop_None.
  - by vm_compute.
Qed.

(** C8.  [removeFromScheduler] returns, and for a pid in the middle of a
    queue, be it the runnable or the blocked queue (after [l1], before
    [l2], [l1] without the pid), it leaves that queue as [l1 ++ l2]: exactly
    that occurrence is gone and the others keep their order.  A queue that
    does not hold the pid is left exactly as it was, the parallel set loses
    at most that pid, and the pid is inserted into the finished set. *)
Theorem removeFromScheduler_middle_of_queue (pid : pid_t) (s : scheduler) :
  ∃ s', removeFromScheduler pid s = Returns tt s' ∧
        (∀ l1 l2, runnableQueue s = l1 ++ pid :: l2 → pid ∉ l1 →
                  runnableQueue s' = l1 ++ l2) ∧
        (∀ l1 l2, blockedQueue s = l1 ++ pid :: l2 → pid ∉ l1 →
                  blockedQueue s' = l1 ++ l2) ∧
        (pid ∉ runnableQueue s → runnableQueue s' = runnableQueue s) ∧
        (pid ∉ blockedQueue s → blockedQueue s' = blockedQueue s) ∧
        parallelProcesses s' = parallelProcesses s ∖ {[pid]} ∧
        finishedProcesses s' = {[pid]} ∪ finishedProcesses s ∧
        startingPid s' = startingPid s.
Proof.
  destruct (removeFromScheduler_returns pid s) as [l' ->].
  eexists. split; [done|]. simpl. split_and!.
  - intros l1 l2 -> Hn. by apply rebuilt_first.
  - intros l1 l2 -> Hn. by apply rebuilt_first.
  - apply rebuilt_absent.
  - apply rebuilt_absent.
  - done.
  - done.
  - done.
Qed.

Lemma removeFromScheduler_middle_of_queue_witness :
  ∃ s', removeFromScheduler 2 (mkScheduler [] 1 {[1]} [1; 2; 3] [4; 2; 5] ∅)
          = Returns tt s' ∧
        runnableQueue s' = [1] ++ [3] ∧
        blockedQueue s' = [4] ++ [5] ∧
        parallelProcesses s' = {[1]} ∖ {[2]} ∧
        finishedProcesses s' = {[2]} ∪ ∅.
Proof.
  assert (2 ∉ [1]) as Hr.
  { intros H. apply list_elem_of_In in H. simpl in H. lia. }
  assert (2 ∉ [4]) as Hb.
  { intros H. apply list_elem_of_In in H. simpl in H. lia. }
  destruct (removeFromScheduler_middle_of_queue 2
              (mkScheduler [] 1 {[1]} [1; 2; 3] [4; 2; 5] ∅))
    as (s' & Hs' & Hrun & Hblk & _ & _ & Hpar & Hfin & _).
  exists s'. split; [exact Hs'|].
  split; [exact (Hrun [1] [3] eq_refl Hr)|].
  split; [exact (Hblk [4] [5] eq_refl Hb)|].
  split; [exact Hpar|exact Hfin].
Defined.

(** C9.  For a pid in none of the parallel set, the blocked queue and the
    runnable queue, [removeFromScheduler] returns (it neither throws nor is
    undefined), changes nothing but the finished set, into which the pid is
    inserted, and [isFinished] then answers true. *)
Theorem removeFromScheduler_absent_pid (pid : pid_t) (s : scheduler) :
  pid ∉ parallelProcesses s → pid ∉ blockedQueue s → pid ∉ runnableQueue s →
  removeFromScheduler pid s =
    Returns tt (set_finishedProcesses ({[pid]} ∪ finishedProcesses s) s) ∧
  isFinished pid (set_finishedProcesses ({[pid]} ∪ finishedProcesses s) s) =
    Returns true (set_finishedProcesses ({[pid]} ∪ finishedProcesses s) s).
Proof.
  intros Hp Hb Hr. split.
  - unfold removeFromScheduler. unfold_M.
    rewrite bool_decide_eq_false_2 by done. simpl.
    rewrite (remove_loop_absent pid (blockedQueue s)) by done. simpl.
    rewrite (remove_loop_absent pid (runnableQueue s)) by done. simpl.
    rewrite ?drain_loop_app. simpl. by destruct s.
  - unfold_M. simpl. rewrite bool_decide_eq_true_2; [done|set_solver].
Qed.

Lemma removeFromScheduler_absent_pid_witness :
  (5 ∉ parallelProcesses (mkScheduler [] 1 ∅ [1; 2] [3] ∅)) ∧
  (5 ∉ blockedQueue (mkScheduler [] 1 ∅ [1; 2] [3] ∅)) ∧
  (5 ∉ runnableQueue (mkScheduler [] 1 ∅ [1; 2] [3] ∅)) ∧
  removeFromScheduler 5 (mkScheduler [] 1 ∅ [1; 2] [3] ∅) =
    Returns tt (set_finishedProcesses
                  ({[5]} ∪ finishedProcesses (mkScheduler [] 1 ∅ [1; 2] [3] ∅))
                  (mkScheduler [] 1 ∅ [1; 2] [3] ∅)) ∧
  isFinished 5 (set_finishedProcesses
                  ({[5]} ∪ finishedProcesses (mkScheduler [] 1 ∅ [1; 2] [3] ∅))
                  (mkScheduler [] 1 ∅ [1; 2] [3] ∅)) =
    Returns true (set_finishedProcesses
                    ({[5]} ∪ finishedProcesses (mkScheduler [] 1 ∅ [1; 2] [3] ∅))
                    (mkScheduler [] 1 ∅ [1; 2] [3] ∅)).
Proof.
  assert (5 ∉ (∅ : gset Z)) as Hp by apply not_elem_of_empty.
  assert (5 ∉ [3]) as Hb.
  { intros H. apply list_elem_of_In in H. simpl in H. lia. }
  assert (5 ∉ [1; 2]) as Hr.
  { intros H. apply list_elem_of_In in H. simpl in H. lia. }
  split; [exact Hp|]. split; [exact Hb|]. split; [exact Hr|].
  apply (removeFromScheduler_absent_pid 5 (mkScheduler [] 1 ∅ [1; 2] [3] ∅));
    [exact Hp|exact Hb|exact Hr].
Defined.

(** *** Sequences of transitions *)

(** The scheduler after one transition, case by case. *)
Lemma after_cases (t : transition) (s s' : scheduler) :
  after t s = Some s' →
  match t with
  | AddToParallelSet pid =>
      s' = set_parallelProcesses ({[pid]} ∪ parallelProcesses s) s
  | AddToRunnableQueue pid =>
      s' = set_runnableQueue (runnableQueue s ++ [pid])
             (set_parallelProcesses (parallelProcesses s ∖ {[pid]}) s)
  | PreemptSyscall pid =>
      s' = s ∨
      ∃ q, runnableQueue s = pid :: q ∧
           s' = set_blockedQueue (blockedQueue s ++ [pid]) (set_runnableQueue q s)
  | ResumeRetry pid =>
      s' = s ∨
      ∃ q, blockedQueue s = pid :: q ∧ s' = set_blockedQueue (q ++ [pid]) s
  | ResumeParallel pid =>
      s' = s ∨
      (∃ q, blockedQueue s = pid :: q ∧
            s' = set_parallelProcesses ({[pid]} ∪ parallelProcesses s)
                   (set_blockedQueue q s)) ∨
      (∃ q, runnableQueue s = pid :: q ∧
            s' = set_parallelProcesses ({[pid]} ∪ parallelProcesses s)
                   (set_runnableQueue q s))
  | RemoveFromScheduler pid =>
      ∃ l', s' = mkScheduler l' (startingPid s) (parallelProcesses s ∖ {[pid]})
                   (rebuilt pid (runnableQueue s)) (rebuilt pid (blockedQueue s))
                   ({[pid]} ∪ finishedProcesses s)
  end.
Proof.
  destruct t as [pid|pid|pid|pid|pid|pid]; unfold after, run.
  - rewrite addToParallelSet_returns. by intros [= <-].
  - rewrite addToRunnableQueue_returns. by intros [= <-].
  - destruct (runnableQueue s) as [|f q] eqn:Hq.
    { by rewrite (proj2 (preemptSyscall_undefined pid s) Hq). }
    destruct (decide (f = pid)) as [->|Hne].
    + rewrite (preemptSyscall_front pid q s Hq). intros [= <-]. right. by exists q.
    + rewrite (preemptSyscall_wrong_front pid f q s Hq Hne). intros [= <-]. by left.
  - destruct (blockedQueue s) as [|f q] eqn:Hq.
    { by rewrite (proj2 (resumeRetry_undefined pid s) Hq). }
    destruct (decide (f = pid)) as [->|Hne].
    + rewrite (resumeRetry_front pid q s Hq). intros [= <-]. right. by exists q.
    + rewrite (resumeRetry_wrong_front pid f q s Hq Hne). intros [= <-]. by left.
  - destruct (blockedQueue s) as [|b bq] eqn:Hb.
    { rewrite (proj2 (resumeParallel_undefined pid s)); [done|by left]. }
    destruct (runnableQueue s) as [|r rq] eqn:Hr.
    { rewrite (proj2 (resumeParallel_undefined pid s)); [done|by right]. }
    destruct (decide (b = pid)) as [->|Hnb].
    { rewrite (resumeParallel_blocked_front pid r bq rq s Hb Hr).
      intros [= <-]. right. left. by exists bq. }
    destruct (decide (r = pid)) as [->|Hnr].
    { rewrite (resumeParallel_runnable_front pid b bq rq s Hb Hr Hnb).
      intros [= <-]. right. right. by exists rq. }
    rewrite (resumeParallel_neither_front pid b r bq rq s Hb Hr Hnb Hnr).
    intros [= <-]. by left.
  - destruct (removeFromScheduler_returns pid s) as [l' ->].
    intros [= <-]. by exists l'.
Qed.

(** The finished set only grows. *)
Lemma after_finished (t : transition) (s s' : scheduler) :
  after t s = Some s' → finishedProcesses s ⊆ finishedProcesses s'.
Proof.
  intros H. apply after_cases in H. destruct t; simpl in H.
  - by subst.
  - by subst.
  - by destruct H as [->|(q & _ & ->)].
  - by destruct H as [->|(q & _ & ->)].
  - by destruct H as [->|[(q & _ & ->)|(q & _ & ->)]].
  - destruct H as [l' ->]. simpl. set_solver.
Qed.

(** A pid that is not live stays so through every transition that is not
    an insertion of that very pid. *)
Lemma after_not_live (pid : pid_t) (t : transition) (s s' : scheduler) :
  t ≠ AddToParallelSet pid → t ≠ AddToRunnableQueue pid →
  after t s = Some s' → ¬ live pid s → ¬ live pid s'.
Proof.
  intros Hp Hr H. apply after_cases in H. unfold live.
  destruct t as [p|p|p|p|p|p]; simpl in H.
  - subst; simpl. assert (p ≠ pid) by congruence. set_solver.
  - subst; simpl. assert (p ≠ pid) by congruence. set_solver.
  - destruct H as [->|(q & Hq & ->)]; [done|]. simpl. rewrite Hq. set_solver.
  - destruct H as [->|(q & Hq & ->)]; [done|]. simpl. rewrite Hq. set_solver.
  - destruct H as [->|[(q & Hq & ->)|(q & Hq & ->)]]; [done|..];
      simpl; rewrite Hq; set_solver.
  - destruct H as [l' ->]. simpl.
    pose proof (rebuilt_sublist p (runnableQueue s)) as H1.
    pose proof (rebuilt_sublist p (blockedQueue s)) as H2.
    intros Hl [Hin|[Hin|Hin]]; apply Hl.
    + left. set_solver.
    + right; left. by eapply elem_of_sublist.
    + right; right. by eapply elem_of_sublist.
Qed.

Lemma after_all_not_live (pid : pid_t) (ts : list transition) (s s' : scheduler) :
  Forall (λ t, t ≠ AddToParallelSet pid ∧ t ≠ AddToRunnableQueue pid) ts →
  after_all ts s = Some s' →
  pid ∈ finishedProcesses s → ¬ live pid s →
  pid ∈ finishedProcesses s' ∧ ¬ live pid s'.
Proof.
  intros Hts. revert s. induction Hts as [|t ts [Ht1 Ht2] _ IH]; intros s; simpl.
  - by intros [= <-].
  - destruct (after t s) as [s1|] eqn:Ht; [|done]. intros Hall Hf Hl.
    apply (IH s1 Hall).
    + by apply (after_finished t s s1 Ht).
    + by apply (after_not_live pid t s s1).
Qed.

Lemma NoDup_push (x : pid_t) (q : queue) : NoDup (q ++ [x]) ↔ (x ∉ q) ∧ NoDup q.
Proof.
  rewrite NoDup_app. split.
  - intros (Hq & Hx & _). split; [|done]. intros Hin. apply (Hx x Hin). set_solver.
  - intros [Hx Hq]. split_and!; [done| |apply NoDup_singleton]. set_solver.
Qed.

(** Under the side condition on insertions every transition keeps the
    queues free of duplicates and the three collections apart. *)
Lemma after_keeps_apart (t : transition) (s s' : scheduler) :
  adds_unqueued t s → after t s = Some s' →
  NoDup (runnableQueue s) ∧ NoDup (blockedQueue s) ∧ disjointness s →
  NoDup (runnableQueue s') ∧ NoDup (blockedQueue s') ∧ disjointness s'.
Proof.
  intros HG H (Hr & Hb & Hd). apply after_cases in H. unfold disjointness in *.
  destruct t as [p|p|p|p|p|p]; simpl in H, HG.
  - subst; simpl. split_and!; [done..|]. intros pid.
    specialize (Hd pid). set_solver.
  - subst; simpl. rewrite NoDup_push. split_and!; [tauto|done..|].
    intros pid. specialize (Hd pid). set_solver.
  - destruct H as [->|(q & Hq & ->)]; [done|]. simpl.
    rewrite Hq in Hr, Hd. apply NoDup_cons in Hr as [Hp Hr].
    rewrite NoDup_push. pose proof (Hd p) as Hdp.
    split_and!; [done|set_solver|done|].
    intros pid. specialize (Hd pid). set_solver.
  - destruct H as [->|(q & Hq & ->)]; [done|]. simpl.
    rewrite Hq in Hb, Hd. apply NoDup_cons in Hb as [Hp Hb].
    rewrite NoDup_push. split_and!; [done..|].
    intros pid. specialize (Hd pid). set_solver.
  - destruct H as [->|[(q & Hq & ->)|(q & Hq & ->)]]; [done|..]; simpl.
    + rewrite Hq in Hb, Hd. apply NoDup_cons in Hb as [Hp Hb].
      pose proof (Hd p) as Hdp. split_and!; [done..|].
      intros pid. specialize (Hd pid). set_solver.
    + rewrite Hq in Hr, Hd. apply NoDup_cons in Hr as [Hp Hr].
      pose proof (Hd p) as Hdp. split_and!; [done..|].
      intros pid. specialize (Hd pid). set_solver.
  - destruct H as [l' ->]. simpl.
    pose proof (rebuilt_sublist p (runnableQueue s)) as H1.
    pose proof (rebuilt_sublist p (blockedQueue s)) as H2.
    split_and!;
      [by apply (sublist_NoDup _ (runnableQueue s))
      |by apply (sublist_NoDup _ (blockedQueue s))|].
    intros pid. specialize (Hd pid).
    pose proof (λ H, elem_of_sublist _ _ pid H H1).
    pose proof (λ H, elem_of_sublist _ _ pid H H2).
    set_solver.
Qed.

(** C3, as amended.  In every state reachable from the constructed
    scheduler by transitions (returning, or failing with the invariant
    violation) in which [addToParallelSet] and [addToRunnableQueue] are
    applied only to a pid that is at that moment in neither queue, no pid
    is in more than one of the parallel set, the runnable queue and the
    blocked queue; moreover no queue holds a pid twice. *)
Theorem disjointness_of_reachable_states (root : pid_t) (l0 : list log_line)
    (s : scheduler) :
  reachable adds_unqueued root l0 s →
  disjointness s ∧ NoDup (runnableQueue s) ∧ NoDup (blockedQueue s).
Proof.
  intros Hreach.
  assert (NoDup (runnableQueue s) ∧ NoDup (blockedQueue s) ∧ disjointness s)
    as (? & ? & ?); [|done].
  induction Hreach as [|t s s' _ IH HG Hstep].
  - simpl. split_and!; [apply NoDup_nil_2..|]. intros pid. set_solver.
  - by apply (after_keeps_apart t s s').
Qed.

Lemma rebuilt_once_gone (pid : pid_t) (q : queue) :
  (occurrences pid q ≤ 1)%nat → pid ∉ rebuilt pid q.
Proof.
  unfold occurrences. intros Hocc.
  destruct (rebuilt_cases pid q) as [[Hn ->]|(l1 & l2 & -> & Hn & ->)]; [done|].
  rewrite filter_app, filter_cons_True, length_app in Hocc by done.
  simpl in Hocc.
  assert (filter (λ x, x = pid) l2 = []) as Hnil by (apply nil_length_inv; lia).
  pose proof (filter_nil_not_elem_of _ l2 pid Hnil eq_refl). set_solver.
Qed.

(** C4, as amended.  Once [removeFromScheduler] has moved a pid to the
    finished set, from a state in which neither queue holds that pid more
    than once, the pid stays finished and is in none of the parallel set,
    the runnable queue and the blocked queue after any further transitions
    (each returning, or failing with the invariant violation) other than
    [addToParallelSet] and [addToRunnableQueue] of that very pid.  Those two
    do bring the finished pid back, into the parallel set and into the
    runnable queue, and it is finished all the same. *)
Theorem finished_permanence (pid : pid_t) (ts : list transition)
    (s s1 s2 : scheduler) :
  (occurrences pid (runnableQueue s) ≤ 1)%nat →
  (occurrences pid (blockedQueue s) ≤ 1)%nat →
  removeFromScheduler pid s = Returns tt s1 →
  Forall (λ t, t ≠ AddToParallelSet pid ∧ t ≠ AddToRunnableQueue pid) ts →
  after_all ts s1 = Some s2 →
  pid ∈ finishedProcesses s2 ∧ ¬ live pid s2 ∧
  (∃ s3, after (AddToParallelSet pid) s2 = Some s3 ∧
         pid ∈ parallelProcesses s3 ∧ pid ∈ finishedProcesses s3) ∧
  (∃ s3, after (AddToRunnableQueue pid) s2 = Some s3 ∧
         pid ∈ runnableQueue s3 ∧ pid ∈ finishedProcesses s3).
Proof.
  intros Hr Hb Hrem Hts Hall.
  destruct (removeFromScheduler_returns pid s) as [l' Heq].
  rewrite Heq in Hrem. injection Hrem as <-.
  assert (pid ∈ finishedProcesses s2 ∧ ¬ live pid s2) as [Hfin Hlive].
  { apply (after_all_not_live pid ts _ s2 Hts Hall); simpl; [set_solver|].
    pose proof (rebuilt_once_gone pid _ Hr).
    pose proof (rebuilt_once_gone pid _ Hb).
    unfold live. simpl. set_solver. }
  split_and!; [done|done| |].
  - eexists. unfold after, run. rewrite addToParallelSet_returns.
    split; [done|]. simpl. split; [set_solver|done].
  - eexists. unfold after, run. rewrite addToRunnableQueue_returns.
    split; [done|]. simpl. split; [set_solver|done].
Qed.

Lemma disjointness_of_reachable_states_witness :
  reachable adds_unqueued 100 [] (mkScheduler [] 100 ∅ [] [100] ∅) ∧
  disjointness (mkScheduler [] 100 ∅ [] [100] ∅) ∧
  NoDup (runnableQueue (mkScheduler [] 100 ∅ [] [100] ∅)) ∧
  NoDup (blockedQueue (mkScheduler [] 100 ∅ [] [100] ∅)).
Proof.
  assert (reachable adds_unqueued 100 [] (mkScheduler [] 100 ∅ [100] [] ∅)) as H1.
  { apply (reachable_step _ _ _ (AddToRunnableQueue 100) (scheduler_ctor 100 []));
      [apply reachable_ctor|split; apply not_elem_of_nil|vm_compute; reflexivity]. }
  assert (reachable adds_unqueued 100 [] (mkScheduler [] 100 ∅ [] [100] ∅)) as H2.
  { apply (reachable_step _ _ _ (PreemptSyscall 100) _ _ H1);
      [exact I|vm_compute; reflexivity]. }
  split; [exact H2|].
  apply (disjointness_of_reachable_states 100 [] _ H2).
Defined.

(** C3, as stated, fails: neither insertion looks at the queues.  A pid that
    is runnable and is added to the parallel set is in both; a pid made
    runnable twice and then preempted (as the front of the runnable queue)
    is runnable and blocked. *)
Lemma disjointness_broken_by_insertions :
  after_all [AddToRunnableQueue 100; AddToParallelSet 100] (scheduler_ctor 100 [])
    = Some (mkScheduler [] 100 {[100]} [100] [] ∅) ∧
  ¬ disjointness (mkScheduler [] 100 {[100]} [100] [] ∅) ∧
  after_all [AddToRunnableQueue 100; AddToRunnableQueue 100; PreemptSyscall 100]
      (scheduler_ctor 100 [])
    = Some (mkScheduler [] 100 ∅ [100] [100] ∅) ∧
  ¬ disjointness (mkScheduler [] 100 ∅ [100] [100] ∅) ∧
  ¬ (∀ root l0 s, reachable returns_normally root l0 s → disjointness s).
Proof.
  assert (¬ disjointness (mkScheduler [] 100 {[100]} [100] [] ∅)) as Hbad.
  { intros H. destruct (H 100) as (H1 & _). apply H1. simpl. set_solver. }
  split_and!; [by vm_compute|done|by vm_compute| |].
  - intros H. destruct (H 100) as (_ & _ & H3). apply H3. simpl. set_solver.
  - intros H. apply Hbad. apply (H 100 []).
    apply (reachable_step _ _ _ (AddToParallelSet 100)
             (mkScheduler [] 100 ∅ [100] [] ∅)).
    + apply (reachable_step _ _ _ (AddToRunnableQueue 100) (scheduler_ctor 100 [])).
      * apply reachable_ctor.
      * eexists. reflexivity.
      * by vm_compute.
    + eexists. reflexivity.
    + by vm_compute.
Qed.

Lemma finished_permanence_witness :
  (occurrences 3 (runnableQueue sample_twice) ≤ 1)%nat ∧
  (occurrences 3 (blockedQueue sample_twice) ≤ 1)%nat ∧
  removeFromScheduler 3 sample_twice
    = Returns tt
        (mkScheduler [LogLine info (Some blue)
                        "Process [%d] removed from runnableQueue\n" (Some 3)]
           1 {[1]} [2; 2] [4] {[3]}) ∧
  Forall (λ t, t ≠ AddToParallelSet 3 ∧ t ≠ AddToRunnableQueue 3)
    [PreemptSyscall 2; AddToParallelSet 5; ResumeRetry 4; ResumeRetry 3] ∧
  after_all [PreemptSyscall 2; AddToParallelSet 5; ResumeRetry 4; ResumeRetry 3]
      (mkScheduler [LogLine info (Some blue)
                      "Process [%d] removed from runnableQueue\n" (Some 3)]
         1 {[1]} [2; 2] [4] {[3]})
    = Some (mkScheduler [LogLine info (Some blue)
                           "Process [%d] removed from runnableQueue\n" (Some 3)]
              1 {[1; 5]} [2] [2; 4] {[3]}) ∧
  3 ∈ finishedProcesses
        (mkScheduler [LogLine info (Some blue)
                        "Process [%d] removed from runnableQueue\n" (Some 3)]
           1 {[1; 5]} [2] [2; 4] {[3]}) ∧
  ¬ live 3 (mkScheduler [LogLine info (Some blue)
                           "Process [%d] removed from runnableQueue\n" (Some 3)]
              1 {[1; 5]} [2] [2; 4] {[3]}) ∧
  (∃ s3, after (AddToParallelSet 3)
           (mkScheduler [LogLine info (Some blue)
                           "Process [%d] removed from runnableQueue\n" (Some 3)]
              1 {[1; 5]} [2] [2; 4] {[3]}) = Some s3 ∧
         3 ∈ parallelProcesses s3 ∧ 3 ∈ finishedProcesses s3) ∧
  (∃ s3, after (AddToRunnableQueue 3)
           (mkScheduler [LogLine info (Some blue)
                           "Process [%d] removed from runnableQueue\n" (Some 3)]
              1 {[1; 5]} [2] [2; 4] {[3]}) = Some s3 ∧
         3 ∈ runnableQueue s3 ∧ 3 ∈ finishedProcesses s3).
Proof.
  assert (occurrences 3 (runnableQueue sample_twice) ≤ 1)%nat
    as Hr by (vm_compute; lia).
  assert (occurrences 3 (blockedQueue sample_twice) ≤ 1)%nat
    as Hb by (vm_compute; lia).
  assert (Forall (λ t, t ≠ AddToParallelSet 3 ∧ t ≠ AddToRunnableQueue 3)
            [PreemptSyscall 2; AddToParallelSet 5; ResumeRetry 4; ResumeRetry 3])
    as Hts by (repeat constructor; discriminate).
  split; [exact Hr|]. split; [exact Hb|].
  split; [vm_compute; reflexivity|]. split; [exact Hts|].
  split; [vm_compute; reflexivity|].
  apply (finished_permanence 3
           [PreemptSyscall 2; AddToParallelSet 5; ResumeRetry 4; ResumeRetry 3]
           sample_twice
           (mkScheduler [LogLine info (Some blue)
                           "Process [%d] removed from runnableQueue\n" (Some 3)]
              1 {[1]} [2; 2] [4] {[3]}));
    [exact Hr|exact Hb|vm_compute; reflexivity|exact Hts|vm_compute; reflexivity].
Defined.

(** C4, as stated, fails: the insertions never consult the finished set.
    A finished pid that is added to the parallel set is in it again; and a
    pid that was queued twice is still queued after its removal and is
    moved on by the next transition. *)
Lemma finished_pid_comes_back :
  after_all [RemoveFromScheduler 100; AddToParallelSet 100] (scheduler_ctor 100 [])
    = Some (mkScheduler [LogLine info (Some blue)
                           "Process [%d] removed from parallelProcesses\n" (Some 100)]
              100 {[100]} [] [] {[100]}) ∧
  after_all [AddToRunnableQueue 100; AddToRunnableQueue 100;
             RemoveFromScheduler 100; PreemptSyscall 100] (scheduler_ctor 100 [])
    = Some (mkScheduler [LogLine info (Some blue)
                           "Process [%d] removed from runnableQueue\n" (Some 100)]
              100 ∅ [] [100] {[100]}).
Proof. split; by vm_compute. Qed.

(** * Further properties of the member functions *)

(** X1.  On a non-empty runnable queue [preemptSyscall] is decided by the
    front alone: if the front is the pid the call returns, with the pid
    moved from the front of the runnable queue to the back of the blocked
    queue and nothing else changed; otherwise it throws and the scheduler is
    exactly as before. *)
Theorem preemptSyscall_nonempty (pid frontPid : pid_t) (q : queue) (s : scheduler) :
  runnableQueue s = frontPid :: q →
  preemptSyscall pid s =
    if decide (frontPid = pid)
    then Returns tt (set_blockedQueue (blockedQueue s ++ [pid]) (set_runnableQueue q s))
    else Throws "trying to preempt wrong pid!" s.
Proof.
  intros Hq. destruct (decide (frontPid = pid)) as [->|Hne].
  - by apply preemptSyscall_front.
  - by apply (preemptSyscall_wrong_front pid frontPid q).
Qed.

Lemma preemptSyscall_nonempty_witness :
  runnableQueue sample = 2 :: [3] ∧
  preemptSyscall 3 sample =
    if decide (2 = 3)
    then Returns tt (set_blockedQueue (blockedQueue sample ++ [3])
                       (set_runnableQueue [3] sample))
    else Throws "trying to preempt wrong pid!" sample.
Proof.
  split; [reflexivity|].
  apply (preemptSyscall_nonempty 3 2 [3] sample). reflexivity.
Defined.

(** X2.  On a non-empty blocked queue [resumeRetry] is decided by the front
    alone: if the front is the pid the call returns with the blocked queue
    rotated by one position and nothing else changed; otherwise it throws
    and the scheduler is exactly as before. *)
Theorem resumeRetry_nonempty (pid frontPid : pid_t) (q : queue) (s : scheduler) :
  blockedQueue s = frontPid :: q →
  resumeRetry pid s =
    if decide (frontPid = pid)
    then Returns tt (set_blockedQueue (q ++ [pid]) s)
    else Throws "trying to resume retry with wrong pid" s.
Proof.
  intros Hq. destruct (decide (frontPid = pid)) as [->|Hne].
  - by apply resumeRetry_front.
  - by apply (resumeRetry_wrong_front pid frontPid q).
Qed.

Lemma resumeRetry_nonempty_witness :
  blockedQueue sample = 4 :: [5] ∧
  resumeRetry 4 sample =
    if decide (4 = 4)
    then Returns tt (set_blockedQueue ([5] ++ [4]) sample)
    else Throws "trying to resume retry with wrong pid" sample.
Proof.
  split; [reflexivity|].
  apply (resumeRetry_nonempty 4 4 [5] sample). reflexivity.
Defined.

(** X3.  Round robin among the blocked processes: [k] rounds of asking
    [getNextBlocked] and retrying the pid it answers, with [k] at most the
    length of the blocked queue, return and leave the queue rotated by [k]
    positions; nothing else changes, and no round throws. *)
Theorem resumeRetry_rounds_rotate_by (k : nat) (s : scheduler) :
  (k ≤ length (blockedQueue s))%nat →
  resumeRetry_rounds k s =
    Returns tt (set_blockedQueue (drop k (blockedQueue s) ++ take k (blockedQueue s)) s).
Proof.
  intros Hk.
  rewrite <- (resumeRetry_rounds_rotate (take k (blockedQueue s))
                (drop k (blockedQueue s)) s) by by rewrite take_drop.
  by rewrite length_take, Nat.min_l.
Qed.

Lemma resumeRetry_rounds_rotate_by_witness :
  (1 ≤ length (blockedQueue sample))%nat ∧
  resumeRetry_rounds 1 sample =
    Returns tt (set_blockedQueue (drop 1 (blockedQueue sample) ++
                                  take 1 (blockedQueue sample)) sample).
Proof.
  assert (1 ≤ length (blockedQueue sample))%nat as Hk by (simpl; lia).
  split; [exact Hk|]. apply (resumeRetry_rounds_rotate_by 1 sample Hk).
Defined.

(** X4.  A full cycle of the round robin (as many rounds as there are
    blocked processes) returns and leaves the scheduler exactly as it was,
    whatever the blocked queue holds (duplicates included). *)
Theorem resumeRetry_rounds_full_cycle (s : scheduler) :
  resumeRetry_rounds (length (blockedQueue s)) s = Returns tt s.
Proof.
  rewrite (resumeRetry_rounds_rotate (blockedQueue s) [] s) by by rewrite app_nil_r.
  by destruct s.
Qed.

(** X5.  With both queues non-empty [resumeParallel] looks at the blocked
    front first: if it is the pid, the blocked queue is popped (and the
    runnable queue is left alone even if its front is the pid too);
    otherwise, if the runnable front is the pid, the runnable queue is
    popped; in both cases the pid is inserted into the parallel set.  If
    neither front is the pid the call throws and nothing changes. *)
Theorem resumeParallel_nonempty (pid b r : pid_t) (bq rq : queue) (s : scheduler) :
  blockedQueue s = b :: bq → runnableQueue s = r :: rq →
  resumeParallel pid s =
    if decide (b = pid)
    then Returns tt (set_parallelProcesses ({[pid]} ∪ parallelProcesses s)
                       (set_blockedQueue bq s))
    else if decide (r = pid)
    then Returns tt (set_parallelProcesses ({[pid]} ∪ parallelProcesses s)
                       (set_runnableQueue rq s))
    else Throws "trying to resume pid that is not front of either queue" s.
Proof.
  intros Hb Hr. destruct (decide (b = pid)) as [->|Hnb].
  { by apply (resumeParallel_blocked_front pid r bq rq). }
  destruct (decide (r = pid)) as [->|Hnr].
  { by apply (resumeParallel_runnable_front pid b bq rq). }
  by apply (resumeParallel_neither_front pid b r bq rq).
Qed.

Lemma resumeParallel_nonempty_witness :
  blockedQueue sample = 4 :: [5] ∧ runnableQueue sample = 2 :: [3] ∧
  resumeParallel 2 sample =
    if decide (4 = 2)
    then Returns tt (set_parallelProcesses ({[2]} ∪ parallelProcesses sample)
                       (set_blockedQueue [5] sample))
    else if decide (2 = 2)
    then Returns tt (set_parallelProcesses ({[2]} ∪ parallelProcesses sample)
                       (set_runnableQueue [3] sample))
    else Throws "trying to resume pid that is not front of either queue" sample.
Proof.
  split; [reflexivity|]. split; [reflexivity|].
  apply (resumeParallel_nonempty 2 4 2 [5] [3] sample); reflexivity.
Defined.

(** X6.  While the runnable queue is not empty, asking [getNextRunnable]
    and preempting the pid it answers returns (the guard of
    [preemptSyscall] cannot fail on that pid): the front of the runnable
    queue is moved to the back of the blocked queue and nothing else
    changes. *)
Theorem preemptNextRunnable_outcome (frontPid : pid_t) (q : queue) (s : scheduler) :
  runnableQueue s = frontPid :: q →
  preemptNextRunnable s =
    Returns tt (set_blockedQueue (blockedQueue s ++ [frontPid])
                  (set_runnableQueue q s)).
Proof.
  intros Hq. unfold preemptNextRunnable. unfold mbind, M_bind.
  assert (getNextRunnable s = Returns frontPid s) as -> by by eval_M.
  by apply preemptSyscall_front.
Qed.

Lemma preemptNextRunnable_outcome_witness :
  runnableQueue sample = 2 :: [3] ∧
  preemptNextRunnable sample =
    Returns tt (set_blockedQueue (blockedQueue sample ++ [2])
                  (set_runnableQueue [3] sample)).
Proof.
  split; [reflexivity|].
  apply (preemptNextRunnable_outcome 2 [3] sample). reflexivity.
Defined.

(** X7.  While neither queue is empty, asking [getNextBlocked] and resuming
    the pid it answers in parallel returns (the guard of [resumeParallel]
    cannot fail on that pid): the front of the blocked queue is popped and
    inserted into the parallel set, and the runnable queue is left alone. *)
Theorem resumeParallelNextBlocked_outcome (b r : pid_t) (bq rq : queue)
    (s : scheduler) :
  blockedQueue s = b :: bq → runnableQueue s = r :: rq →
  resumeParallelNextBlocked s =
    Returns tt (set_parallelProcesses ({[b]} ∪ parallelProcesses s)
                  (set_blockedQueue bq s)).
Proof.
  intros Hb Hr. unfold resumeParallelNextBlocked. unfold mbind, M_bind.
  assert (getNextBlocked s = Returns b s) as -> by by eval_M.
  by apply (resumeParallel_blocked_front b r bq rq).
Qed.

Lemma resumeParallelNextBlocked_outcome_witness :
  blockedQueue sample = 4 :: [5] ∧ runnableQueue sample = 2 :: [3] ∧
  resumeParallelNextBlocked sample =
    Returns tt (set_parallelProcesses ({[4]} ∪ parallelProcesses sample)
                  (set_blockedQueue [5] sample)).
Proof.
  split; [reflexivity|]. split; [reflexivity|].
  apply (resumeParallelNextBlocked_outcome 4 2 [5] [3] sample); reflexivity.
Defined.

(** X8.  [emptyScheduler] returns, leaves the scheduler as it was, and
    answers true exactly when no pid is in the parallel set, the runnable
    queue or the blocked queue; the finished set plays no part. *)
Theorem emptyScheduler_iff_nothing_live (s : scheduler) :
  ∃ b, emptyScheduler s = Returns b s ∧ (b = true ↔ ∀ pid, ¬ live pid s).
Proof.
  destruct (queries_leave_scheduler 0 s) as (_ & _ & _ & _ & _ & _ & -> & _).
  eexists. split; [done|]. rewrite bool_decide_eq_true. unfold live. split.
  - intros (-> & -> & ->) pid. set_solver.
  - intros H. split_and!.
    + destruct (runnableQueue s) as [|x q]; [done|].
      destruct (H x). right; left. set_solver.
    + destruct (blockedQueue s) as [|x q]; [done|].
      destruct (H x). right; right. set_solver.
    + apply elem_of_equiv_empty_L. intros x Hx. destruct (H x). by left.
Qed.

Lemma rebuilt_others (pid : pid_t) (q : queue) :
  filter (λ x, x ≠ pid) (rebuilt pid q) = filter (λ x, x ≠ pid) q ∧
  length q = (length (rebuilt pid q) + if bool_decide (pid ∈ q) then 1 else 0)%nat.
Proof.
  destruct (rebuilt_cases pid q) as [[Hn ->]|(l1 & l2 & -> & Hn & ->)].
  - split; [done|]. rewrite bool_decide_eq_false_2 by done. lia.
  - split.
    + rewrite !filter_app. by rewrite filter_cons_False by (by intros []).
    + rewrite bool_decide_eq_true_2 by set_solver.
      rewrite !length_app. simpl. lia.
Qed.

(** X9.  [removeFromScheduler] returns on every scheduler and every pid (it
    never throws and is never undefined).  It takes the pid out of the
    parallel set and removes one occurrence from each queue that holds it
    (from all of them, not only from the first collection in which it is
    found), inserts it into the finished set, and leaves every other pid
    where it was, in the same order. *)
Theorem removeFromScheduler_effect (pid : pid_t) (s : scheduler) :
  ∃ s', removeFromScheduler pid s = Returns tt s' ∧
    startingPid s' = startingPid s ∧
    parallelProcesses s' = parallelProcesses s ∖ {[pid]} ∧
    finishedProcesses s' = {[pid]} ∪ finishedProcesses s ∧
    filter (λ x, x ≠ pid) (runnableQueue s') = filter (λ x, x ≠ pid) (runnableQueue s) ∧
    filter (λ x, x ≠ pid) (blockedQueue s') = filter (λ x, x ≠ pid) (blockedQueue s) ∧
    length (runnableQueue s) =
      (length (runnableQueue s') + if bool_decide (pid ∈ runnableQueue s) then 1 else 0)%nat ∧
    length (blockedQueue s) =
      (length (blockedQueue s') + if bool_decide (pid ∈ blockedQueue s) then 1 else 0)%nat.
Proof.
  destruct (removeFromScheduler_returns pid s) as [l' ->].
  eexists. split; [done|]. simpl.
  destruct (rebuilt_others pid (runnableQueue s)) as [? ?].
  destruct (rebuilt_others pid (blockedQueue s)) as [? ?].
  by split_and!.
Qed.

Lemma removeFromScheduler_nothing_to_remove (pid : pid_t) (s : scheduler) :
  pid ∉ parallelProcesses s → pid ∉ blockedQueue s → pid ∉ runnableQueue s →
  removeFromScheduler pid s =
    Returns tt (set_finishedProcesses ({[pid]} ∪ finishedProcesses s) s).
Proof.
  intros Hp Hb Hr. unfold removeFromScheduler. unfold_M.
  rewrite bool_decide_eq_false_2 by done. simpl.
  rewrite (remove_loop_absent pid (blockedQueue s)) by done. simpl.
  rewrite (remove_loop_absent pid (runnableQueue s)) by done. simpl.
  rewrite ?drain_loop_app. simpl. by destruct s.
Qed.

(** X10.  A second termination report changes nothing: when no queue holds
    a pid twice, [removeFromScheduler] of a pid that was just removed
    returns and leaves the scheduler (log included) exactly as the first
    call left it. *)
Theorem removeFromScheduler_twice (pid : pid_t) (s s1 : scheduler) :
  NoDup (runnableQueue s) → NoDup (blockedQueue s) →
  removeFromScheduler pid s = Returns tt s1 →
  removeFromScheduler pid s1 = Returns tt s1.
Proof.
  intros Hr Hb Hrem. destruct (removeFromScheduler_returns pid s) as [l' Heq].
  rewrite Heq in Hrem. injection Hrem as <-.
  rewrite removeFromScheduler_nothing_to_remove; simpl.
  - unfold set_finishedProcesses. simpl. do 2 f_equal. set_solver.
  - set_solver.
  - by apply rebuilt_NoDup_gone.
  - by apply rebuilt_NoDup_gone.
Qed.

Lemma removeFromScheduler_twice_witness :
  NoDup (runnableQueue sample) ∧ NoDup (blockedQueue sample) ∧
  removeFromScheduler 5 sample =
    Returns tt (mkScheduler [LogLine info (Some blue)
                               "Process [%d] removed from blockedQueue\n" (Some 5)]
                  1 {[1]} [2; 3] [4] {[5]}) ∧
  removeFromScheduler 5
      (mkScheduler [LogLine info (Some blue)
                      "Process [%d] removed from blockedQueue\n" (Some 5)]
         1 {[1]} [2; 3] [4] {[5]}) =
    Returns tt (mkScheduler [LogLine info (Some blue)
                               "Process [%d] removed from blockedQueue\n" (Some 5)]
                  1 {[1]} [2; 3] [4] {[5]}).
Proof.
  assert (NoDup (runnableQueue sample)) as Hr
    by (apply (bool_decide_unpack _); vm_compute; exact I).
  assert (NoDup (blockedQueue sample)) as Hb
    by (apply (bool_decide_unpack _); vm_compute; exact I).
  split; [exact Hr|]. split; [exact Hb|]. split; [vm_compute; reflexivity|].
  apply (removeFromScheduler_twice 5 sample _ Hr Hb). vm_compute. reflexivity.
Defined.

Lemma isAlive_blocked_loop_hit (pid : pid_t) (q temp q1 temp1 : queue) :
  isAlive_blocked_loop pid q temp = Some (q1, temp1, true) → pid ∈ q.
Proof.
  revert temp. induction q as [|x|x y q IH] using list_pair_ind; intros temp; simpl.
  - done.
  - destruct (decide (x = pid)) as [->|]; [|done]. set_solver.
  - destruct (decide (x = pid)) as [->|]; [set_solver|].
    intros H. apply IH in H. set_solver.
Qed.

(** [isAlive] has no false positives, and a negative answer at least rules
    out the parallel set and the runnable queue. *)
Lemma isAlive_answer (pid : pid_t) (s s' : scheduler) (b : bool) :
  isAlive pid s = Returns b s' →
  (b = true → live pid s) ∧
  (b = false → (pid ∉ parallelProcesses s) ∧ (pid ∉ runnableQueue s)).
Proof.
  unfold live. destruct (decide (pid ∈ parallelProcesses s)) as [Hin|Hout].
  { rewrite isAlive_parallel by done. intros [= <- <-]. split; [by left|done]. }
  destruct (isAlive_blocked_loop pid (blockedQueue s) [])
    as [[[bq1 bt] hb]|] eqn:Hloop.
  - destruct (isAlive_queues pid s bq1 bt hb Hout Hloop) as [l' ->].
    intros [= <- <-]. split.
    + intros [Hb|Hr]%orb_true_iff.
      * subst hb. right; right. by eapply isAlive_blocked_loop_hit.
      * right; left. by apply bool_decide_eq_true in Hr.
    + intros [_ Hr]%orb_false_iff. split; [done|].
      by apply bool_decide_eq_false in Hr.
  - assert (isAlive pid s = Undefined) as ->; [|done].
    by apply isAlive_undefined.
Qed.

(** X11.  Whenever [isAlive] returns: a true answer means the pid is in the
    parallel set or in one of the queues; a false answer means it is neither
    in the parallel set nor in the runnable queue (it may still be blocked);
    the parallel set, the runnable queue, the finished set and the starting
    pid are as before, and the blocked queue holds a sublist of what it
    held: pids may be lost from it, none is added or reordered. *)
Theorem isAlive_answer_and_effect (pid : pid_t) (s s' : scheduler) (b : bool) :
  isAlive pid s = Returns b s' →
  (b = true → live pid s) ∧
  (b = false → (pid ∉ parallelProcesses s) ∧ (pid ∉ runnableQueue s)) ∧
  parallelProcesses s' = parallelProcesses s ∧
  runnableQueue s' = runnableQueue s ∧
  finishedProcesses s' = finishedProcesses s ∧
  blockedQueue s' `sublist_of` blockedQueue s.
Proof.
  intros H. destruct (isAlive_answer pid s s' b H) as [? ?].
  destruct (isAlive_frame pid s s' b H) as (? & ? & ? & ?). by split_and!.
Qed.

Lemma isAlive_answer_and_effect_witness :
  isAlive 5 sample = Returns false (set_blockedQueue [4] sample) ∧
  (false = true → live 5 sample) ∧
  (false = false → (5 ∉ parallelProcesses sample) ∧ (5 ∉ runnableQueue sample)) ∧
  parallelProcesses (set_blockedQueue [4] sample) = parallelProcesses sample ∧
  runnableQueue (set_blockedQueue [4] sample) = runnableQueue sample ∧
  finishedProcesses (set_blockedQueue [4] sample) = finishedProcesses sample ∧
  blockedQueue (set_blockedQueue [4] sample) `sublist_of` blockedQueue sample.
Proof.
  assert (isAlive 5 sample = Returns false (set_blockedQueue [4] sample)) as H
    by (vm_compute; reflexivity).
  split; [exact H|].
  apply (isAlive_answer_and_effect 5 sample _ false H).
Defined.

(** X12.  While nothing is blocked [isAlive] is exact and harmless: it
    returns whether the pid is in the parallel set or the runnable queue,
    and only the log may have changed. *)
Theorem isAlive_nothing_blocked (pid : pid_t) (s : scheduler) :
  blockedQueue s = [] →
  ∃ l', isAlive pid s = Returns (bool_decide (live pid s)) (set_log l' s).
Proof.
  intros Hb. unfold live. destruct (decide (pid ∈ parallelProcesses s)) as [Hin|Hout].
  { rewrite isAlive_parallel by done. eexists.
    rewrite bool_decide_eq_true_2; [done|by left]. }
  assert (isAlive_blocked_loop pid (blockedQueue s) [] = Some ([], [], false))
    as Hloop by by rewrite Hb.
  destruct (isAlive_queues pid s [] [] false Hout Hloop) as [l' ->].
  exists l'. simpl. rewrite Hb. f_equal; [|by destruct s; simpl in *; subst].
  apply bool_decide_ext. set_solver.
Qed.

Lemma isAlive_nothing_blocked_witness :
  blockedQueue (set_blockedQueue [] sample) = [] ∧
  ∃ l', isAlive 3 (set_blockedQueue [] sample) =
        Returns (bool_decide (live 3 (set_blockedQueue [] sample)))
          (set_log l' (set_blockedQueue [] sample)).
Proof.
  split; [reflexivity|].
  apply (isAlive_nothing_blocked 3 (set_blockedQueue [] sample)). reflexivity.
Defined.



Lemma isAlive_keeps_apart_witness :
  isAlive 4 sample =
    Returns true (mkScheduler [LogLine info (Some blue)
                                 "Process [%d] is in blockedQueue\n" (Some 4)]
                    1 {[1]} [2; 3] [5] ∅) ∧
  (NoDup (runnableQueue sample) ∧ NoDup (blockedQueue sample) ∧ disjointness sample) ∧
  NoDup [2; 3] ∧ NoDup [5] ∧
  disjointness (mkScheduler [LogLine info (Some blue)
                               "Process [%d] is in blockedQueue\n" (Some 4)]
                  1 {[1]} [2; 3] [5] ∅).
Proof.
  assert (isAlive 4 sample =
            Returns true (mkScheduler [LogLine info (Some blue)
                                         "Process [%d] is in blockedQueue\n" (Some 4)]
                            1 {[1]} [2; 3] [5] ∅)) as H by (vm_compute; reflexivity).
  assert (NoDup (runnableQueue sample) ∧ NoDup (blockedQueue sample) ∧
          disjointness sample) as Hinv.
  { split; [apply (bool_decide_unpack _); vm_compute; exact I|].
    split; [apply (bool_decide_unpack _); vm_compute; exact I|].
    intros pid. unfold sample. simpl. set_solver by lia. }
  split; [exact H|]. split; [exact Hinv|].
  apply (isAlive_keeps_apart 4 sample _ true H Hinv).
Defined.

(** X15.  [printProcesses] returns on every scheduler and changes nothing
    but the log, to which it appends: a heading, one line per parallel pid
    in ascending order, a heading, one line per runnable pid in queue
    order, a heading, one line per blocked pid in queue order. *)
Theorem printProcesses_effect (s : scheduler) :
  ∃ ps, Sorted Z.le ps ∧ ps ≡ₚ elements (parallelProcesses s) ∧
    printProcesses s =
      Returns tt
        (set_log (log s ++
                  LogLine extra None "Printing parallelProcesses set\n" None
                    :: (pid_line <$> ps) ++
                  LogLine extra None "Printing runnableQueue\n" None
                    :: (pid_line <$> runnableQueue s) ++
                  LogLine extra None "Printing blockedQueue\n" None
                    :: (pid_line <$> blockedQueue s)) s).
Proof.
  exists (merge_sort Z.le (elements (parallelProcesses s))). split_and!.
  - apply Sorted_merge_sort. intros x y. lia.
  - apply merge_sort_Permutation.
  - unfold printProcesses. unfold_M. simpl.
    repeat (rewrite print_queue_returns; simpl). unfold set_log, pid_line. simpl.
    by rewrite <- !app_assoc.
Qed.

(** X16.  Exception safety: only the three transitions guarded by a queue
    front ever throw, and when one throws the scheduler is exactly as it
    was before the call. *)
Theorem throws_leave_scheduler (t : transition) (s s' : scheduler) (what : string) :
  run t s = Throws what s' → front_guarded t ∧ s' = s.
Proof.
  destruct t as [pid|pid|pid|pid|pid|pid]; unfold run, front_guarded.
  - by rewrite addToParallelSet_returns.
  - by rewrite addToRunnableQueue_returns.
  - destruct (runnableQueue s) as [|f q] eqn:Hq.
    { by rewrite (proj2 (preemptSyscall_undefined pid s) Hq). }
    destruct (decide (f = pid)) as [->|Hne].
    + by rewrite (preemptSyscall_front pid q s Hq).
    + rewrite (preemptSyscall_wrong_front pid f q s Hq Hne). by intros [= _ <-].
  - destruct (blockedQueue s) as [|f q] eqn:Hq.
    { by rewrite (proj2 (resumeRetry_undefined pid s) Hq). }
    destruct (decide (f = pid)) as [->|Hne].
    + by rewrite (resumeRetry_front pid q s Hq).
    + rewrite (resumeRetry_wrong_front pid f q s Hq Hne). by intros [= _ <-].
  - destruct (blockedQueue s) as [|b bq] eqn:Hb.
    { rewrite (proj2 (resumeParallel_undefined pid s)); [done|by left]. }
    destruct (runnableQueue s) as [|r rq] eqn:Hr.
    { rewrite (proj2 (resumeParallel_undefined pid s)); [done|by right]. }
    destruct (decide (b = pid)) as [->|Hnb].
    { by rewrite (resumeParallel_blocked_front pid r bq rq s Hb Hr). }
    destruct (decide (r = pid)) as [->|Hnr].
    { by rewrite (resumeParallel_runnable_front pid b bq rq s Hb Hr Hnb). }
    rewrite (resumeParallel_neither_front pid b r bq rq s Hb Hr Hnb Hnr).
    by intros [= _ <-].
  - by destruct (removeFromScheduler_returns pid s) as [l' ->].
Qed.

Lemma throws_leave_scheduler_witness :
  run (ResumeParallel 3) sample =
    Throws "trying to resume pid that is not front of either queue" sample ∧
  front_guarded (ResumeParallel 3) ∧ sample = sample.
Proof.
  assert (run (ResumeParallel 3) sample =
            Throws "trying to resume pid that is not front of either queue" sample)
    as H by (vm_compute; reflexivity).
  split; [exact H|].
  apply (throws_leave_scheduler (ResumeParallel 3) sample sample _ H).
Defined.

Lemma after_startingPid (t : transition) (s s' : scheduler) :
  after t s = Some s' → startingPid s' = startingPid s.
Proof.
  intros H. apply after_cases in H. destruct t; simpl in H.
  - by subst.
  - by subst.
  - by destruct H as [->|(q & _ & ->)].
  - by destruct H as [->|(q & _ & ->)].
  - by destruct H as [->|[(q & _ & ->)|(q & _ & ->)]].
  - by destruct H as [l' ->].
Qed.

(** X17.  Through any sequence of transitions (returning or throwing) the
    finished set only grows, so a pid for which [isFinished] was true stays
    finished whatever is done with it afterwards, and the starting pid
    never changes. *)
Theorem finished_grows (ts : list transition) (s s' : scheduler) :
  after_all ts s = Some s' →
  finishedProcesses s ⊆ finishedProcesses s' ∧ startingPid s' = startingPid s.
Proof.
  revert s. induction ts as [|t ts IH]; intros s; simpl.
  - by intros [= <-].
  - destruct (after t s) as [s1|] eqn:Ht; [|done]. intros Hall.
    destruct (IH s1 Hall) as [Hf Hs]. split.
    + etrans; [by apply (after_finished t s s1)|done].
    + rewrite Hs. by apply (after_startingPid t).
Qed.

Lemma finished_grows_witness :
  after_all [RemoveFromScheduler 2; AddToParallelSet 2; PreemptSyscall 9] sample
    = Some (mkScheduler [LogLine info (Some blue)
                           "Process [%d] removed from runnableQueue\n" (Some 2)]
              1 {[1; 2]} [3] [4; 5] {[2]}) ∧
  finishedProcesses sample ⊆ {[2]} ∧ 1 = startingPid sample.
Proof.
  assert (after_all [RemoveFromScheduler 2; AddToParallelSet 2; PreemptSyscall 9] sample
            = Some (mkScheduler [LogLine info (Some blue)
                                   "Process [%d] removed from runnableQueue\n" (Some 2)]
                      1 {[1; 2]} [3] [4; 5] {[2]})) as H by (vm_compute; reflexivity).
  split; [exact H|].
  apply (finished_grows _ sample _ H).
Defined.

(** X18.  The three transitions guarded by a queue front neither create nor
    lose a process: after such a call (returning or throwing) exactly the
    same pids are in the union of the parallel set and the two queues, and
    the finished set and the log are untouched. *)
Theorem front_guarded_conserves (t : transition) (s s' : scheduler) :
  front_guarded t → after t s = Some s' →
  (∀ pid, live pid s' ↔ live pid s) ∧
  finishedProcesses s' = finishedProcesses s ∧ log s' = log s.
Proof.
  intros Hg H. apply after_cases in H. unfold live.
  destruct t as [p|p|p|p|p|p]; simpl in H, Hg; try done.
  - destruct H as [->|(q & Hq & ->)]; [done|]. simpl. rewrite Hq.
    split; [|done]. intros pid. set_solver.
  - destruct H as [->|(q & Hq & ->)]; [done|]. simpl. rewrite Hq.
    split; [|done]. intros pid. set_solver.
  - destruct H as [->|[(q & Hq & ->)|(q & Hq & ->)]]; [done|..]; simpl; rewrite Hq;
      (split; [|done]); intros pid; set_solver.
Qed.

Lemma front_guarded_conserves_witness :
  front_guarded (PreemptSyscall 2) ∧
  after (PreemptSyscall 2) sample = Some (mkScheduler [] 1 {[1]} [3] [4; 5; 2] ∅) ∧
  (∀ pid, live pid (mkScheduler [] 1 {[1]} [3] [4; 5; 2] ∅) ↔ live pid sample) ∧
  finishedProcesses (mkScheduler [] 1 {[1]} [3] [4; 5; 2] ∅) = finishedProcesses sample ∧
  log (mkScheduler [] 1 {[1]} [3] [4; 5; 2] ∅) = log sample.
Proof.
  assert (after (PreemptSyscall 2) sample
            = Some (mkScheduler [] 1 {[1]} [3] [4; 5; 2] ∅)) as H
    by (vm_compute; reflexivity).
  split; [exact I|]. split; [exact H|].
  apply (front_guarded_conserves (PreemptSyscall 2) sample _ I H).
Defined.

Lemma after_all_cons (t : transition) (ts : list transition) (s : scheduler) :
  after_all (t :: ts) s =
    match after t s with Some s' => after_all ts s' | None => None end.
Proof. done. Qed.

(** X19.  The runnable queue is first in, first out: making the pids of a
    list runnable one after the other appends them to the runnable queue in
    that order (behind what it held), takes them out of the parallel set
    and changes nothing else. *)
Theorem addToRunnableQueue_fifo (ps : list Z) (s : scheduler) :
  after_all (AddToRunnableQueue <$> ps) s =
    Some (set_runnableQueue (runnableQueue s ++ ps)
            (set_parallelProcesses (parallelProcesses s ∖ list_to_set ps) s)).
Proof.
  revert s. induction ps as [|p ps IH]; intros s.
  - simpl. rewrite app_nil_r.
    destruct s; unfold set_runnableQueue, set_parallelProcesses; simpl.
    do 2 f_equal. set_solver.
  - rewrite fmap_cons, after_all_cons. unfold after, run.
    rewrite addToRunnableQueue_returns, IH.
    unfold set_runnableQueue, set_parallelProcesses. simpl.
    rewrite <- app_assoc. simpl. do 2 f_equal. set_solver.
Qed.

Lemma preemptSyscall_all (q : queue) (s : scheduler) :
  runnableQueue s = q →
  after_all (PreemptSyscall <$> q) s =
    Some (set_blockedQueue (blockedQueue s ++ q) (set_runnableQueue [] s)).
Proof.
  revert s. induction q as [|p q IH]; intros s Hq.
  - simpl. rewrite app_nil_r. destruct s; simpl in *. by subst.
  - rewrite fmap_cons, after_all_cons. unfold after, run.
    rewrite (preemptSyscall_front p q s Hq).
    rewrite IH by done. unfold set_blockedQueue, set_runnableQueue. simpl.
    by rewrite <- app_assoc.
Qed.

(** X20.  Preempting the runnable pids in queue order, each as the front it
    then is, never throws and moves the whole runnable queue behind the
    blocked queue, order kept: the runnable queue ends empty and nothing
    else changes. *)
Theorem preemptSyscall_whole_queue (s : scheduler) :
  after_all (PreemptSyscall <$> runnableQueue s) s =
    Some (set_blockedQueue (blockedQueue s ++ runnableQueue s)
            (set_runnableQueue [] s)).
Proof. by apply preemptSyscall_all. Qed.

(** X21.  A round trip: while the runnable queue is empty and the blocked
    front is another pid, making a parallel pid runnable and resuming it in
    parallel gives back exactly the scheduler one started from. *)
Theorem runnable_and_back_to_parallel (pid b : pid_t) (bq : queue) (s : scheduler) :
  pid ∈ parallelProcesses s → runnableQueue s = [] →
  blockedQueue s = b :: bq → b ≠ pid →
  after_all [AddToRunnableQueue pid; ResumeParallel pid] s = Some s.
Proof.
  intros Hp Hr Hb Hne. rewrite after_all_cons. unfold after at 1, run.
  rewrite addToRunnableQueue_returns, after_all_cons. unfold after, run.
  rewrite (resumeParallel_runnable_front pid b bq []); simpl;
    [|done|by rewrite Hr|done].
  destruct s; simpl in *; subst. unfold set_parallelProcesses. simpl.
  do 2 f_equal. apply set_eq. intros x. rewrite elem_of_union, elem_of_difference,
    elem_of_singleton. destruct (decide (x = pid)); naive_solver.
Qed.

Lemma runnable_and_back_to_parallel_witness :
  1 ∈ parallelProcesses (set_runnableQueue [] sample) ∧
  runnableQueue (set_runnableQueue [] sample) = [] ∧
  blockedQueue (set_runnableQueue [] sample) = 4 :: [5] ∧ 4 ≠ 1 ∧
  after_all [AddToRunnableQueue 1; ResumeParallel 1] (set_runnableQueue [] sample)
    = Some (set_runnableQueue [] sample).
Proof.
  assert (1 ∈ parallelProcesses (set_runnableQueue [] sample)) as Hp
    by (apply (bool_decide_unpack _); vm_compute; exact I).
  assert (4 ≠ 1) as Hne by lia.
  split; [exact Hp|]. split; [reflexivity|]. split; [reflexivity|].
  split; [exact Hne|].
  apply (runnable_and_back_to_parallel 1 4 [5] (set_runnableQueue [] sample));
    [exact Hp|reflexivity|reflexivity|exact Hne].
Defined.

(** X22.  The parallel set behaves as a set: after [addToParallelSet] of a
    pid [isInParallel] answers true for it, adding it a second time changes
    nothing, and after [addToRunnableQueue] of the pid [isInParallel]
    answers false. *)
Theorem parallel_set_membership (pid : pid_t) (s : scheduler) :
  (addToParallelSet pid;; isInParallel pid) s =
    Returns true (set_parallelProcesses ({[pid]} ∪ parallelProcesses s) s) ∧
  (addToParallelSet pid;; addToParallelSet pid) s = addToParallelSet pid s ∧
  (addToRunnableQueue pid;; isInParallel pid) s =
    Returns false (set_runnableQueue (runnableQueue s ++ [pid])
                     (set_parallelProcesses (parallelProcesses s ∖ {[pid]}) s)).
Proof.
  split_and!.
  - unfold_M. simpl. rewrite bool_decide_eq_true_2; [done|set_solver].
  - unfold_M. unfold set_parallelProcesses. simpl. do 2 f_equal. set_solver.
  - unfold_M. simpl. rewrite bool_decide_eq_false_2; [done|set_solver].
Qed.

(** X23.  [numberRunnable] and [numberBlocked] return the length of their
    queue as long as it is below 2^31 (the result is an [int]), and leave
    the scheduler as it was. *)
Theorem number_queued (s : scheduler) :
  Z.of_nat (length (runnableQueue s)) < 2 ^ 31 →
  Z.of_nat (length (blockedQueue s)) < 2 ^ 31 →
  numberRunnable s = Returns (Z.of_nat (length (runnableQueue s))) s ∧
  numberBlocked s = Returns (Z.of_nat (length (blockedQueue s))) s.
Proof.
  intros Hr Hb. unfold_M. unfold Queue.size, to_int.
  split; f_equal; rewrite Z.mod_small; lia.
Qed.

Lemma number_queued_witness :
  Z.of_nat (length (runnableQueue sample)) < 2 ^ 31 ∧
  Z.of_nat (length (blockedQueue sample)) < 2 ^ 31 ∧
  numberRunnable sample = Returns (Z.of_nat (length (runnableQueue sample))) sample ∧
  numberBlocked sample = Returns (Z.of_nat (length (blockedQueue sample))) sample.
Proof.
  assert (Z.of_nat (length (runnableQueue sample)) < 2 ^ 31) as Hr by (simpl; lia).
  assert (Z.of_nat (length (blockedQueue sample)) < 2 ^ 31) as Hb by (simpl; lia).
  split; [exact Hr|]. split; [exact Hb|]. apply (number_queued sample Hr Hb).
Defined.

(** X24.  [addToRunnableQueue] queues behind: the pid [getNextRunnable]
    answers right after it is the front the queue already had, and the new
    pid only if the queue was empty. *)
Theorem addToRunnableQueue_keeps_front (pid : pid_t) (s : scheduler) :
  (addToRunnableQueue pid;; getNextRunnable) s =
    Returns (default pid (head (runnableQueue s)))
      (set_runnableQueue (runnableQueue s ++ [pid])
         (set_parallelProcesses (parallelProcesses s ∖ {[pid]}) s)).
Proof.
  unfold mbind, M_bind. rewrite addToRunnableQueue_returns.
  destruct (queries_leave_scheduler 0
              (set_runnableQueue (runnableQueue s ++ [pid])
                 (set_parallelProcesses (parallelProcesses s ∖ {[pid]}) s)))
    as (_ & _ & _ & _ & -> & _).
  simpl. by destruct (runnableQueue s).
Qed.

(** X25.  The starting pid recorded by the constructor is what
    [getStartingPid] answers in every state reached from the constructed
    scheduler, whatever transitions were applied (also after the starting
    process itself has finished). *)
Theorem getStartingPid_is_root (G : transition → scheduler → Prop)
    (root : pid_t) (l0 : list log_line) (s : scheduler) :
  reachable G root l0 s → getStartingPid s = Returns root s.
Proof.
  intros Hreach. assert (startingPid s = root) as Hroot.
  { induction Hreach as [|t s s' _ IH _ Hstep]; [done|].
    by rewrite (after_startingPid t s s' Hstep). }
  unfold_M. by rewrite Hroot.
Qed.

Lemma getStartingPid_is_root_witness :
  reachable (λ _ _, True) 1 []
    (mkScheduler [LogLine info (Some blue)
                    "Process [%d] removed from parallelProcesses\n" (Some 1)]
       1 ∅ [] [] {[1]}) ∧
  getStartingPid
      (mkScheduler [LogLine info (Some blue)
                      "Process [%d] removed from parallelProcesses\n" (Some 1)]
         1 ∅ [] [] {[1]}) =
    Returns 1
      (mkScheduler [LogLine info (Some blue)
                      "Process [%d] removed from parallelProcesses\n" (Some 1)]
         1 ∅ [] [] {[1]}).
Proof.
  assert (reachable (λ _ _, True) 1 []
            (mkScheduler [LogLine info (Some blue)
                            "Process [%d] removed from parallelProcesses\n" (Some 1)]
               1 ∅ [] [] {[1]})) as H.
  { apply (reachable_step _ _ _ (RemoveFromScheduler 1) (scheduler_ctor 1 []));
      [apply reachable_ctor|exact I|vm_compute; reflexivity]. }
  split; [exact H|]. apply (getStartingPid_is_root _ 1 [] _ H).
Defined.

(** X26.  For a pid in the parallel set [isAlive] answers true at once: it
    writes one log line and touches neither queue, whatever they hold (also
    when a scan of the blocked queue would have been undefined). *)
Theorem isAlive_in_parallel (pid : pid_t) (s : scheduler) :
  pid ∈ parallelProcesses s →
  ∃ l', isAlive pid s = Returns true (set_log (log s ++ [l']) s).
Proof. intros Hin. eexists. by apply isAlive_parallel. Qed.

Lemma isAlive_in_parallel_witness :
  1 ∈ parallelProcesses (set_blockedQueue [4] sample) ∧
  ∃ l', isAlive 1 (set_blockedQueue [4] sample) =
        Returns true (set_log (log (set_blockedQueue [4] sample) ++ [l'])
                        (set_blockedQueue [4] sample)).
Proof.
  assert (1 ∈ parallelProcesses (set_blockedQueue [4] sample)) as Hp
    by (apply (bool_decide_unpack _); vm_compute; exact I).
  split; [exact Hp|].
  apply (isAlive_in_parallel 1 (set_blockedQueue [4] sample) Hp).
Defined.

Lemma isAlive_blocked_loop_absent (pid : pid_t) (q temp : queue) :
  pid ∉ q → Nat.Even (length q) →
  ∃ kept, isAlive_blocked_loop pid q temp = Some ([], temp ++ kept, false) ∧
          (2 * length kept = length q)%nat ∧
          ∀ i : nat, kept !! i = q !! (2 * i)%nat.
Proof.
  revert temp. induction q as [|x|x y q IH] using list_pair_ind; intros temp Hn He.
  - exists []. simpl. by rewrite app_nil_r.
  - destruct He as [m Hm]. simpl in Hm. lia.
  - simpl. rewrite decide_False by set_solver.
    destruct (IH (Queue.push x temp)) as (kept & -> & Hlen & Hkept).
    { set_solver. }
    { by apply (proj1 (Nat.Even_succ_succ (length q))). }
    exists (x :: kept). unfold Queue.push. rewrite <- app_assoc.
    split_and!; [done|simpl; lia|].
    intros [|i]; [done|]. simpl. rewrite Hkept.
    replace (i + S (i + 0))%nat with (S (2 * i)) by lia. done.
Qed.

(** X27.  Asking [isAlive] about a pid that is neither parallel nor blocked,
    while an even number of processes is blocked, returns whether the pid
    is runnable and drops every second blocked process: the blocked queue
    is left with half its length, holding the pids that were at its even
    positions (the front counting as position 0); the other collections are
    unchanged. *)
Theorem isAlive_halves_blocked_queue (pid : pid_t) (s : scheduler) :
  pid ∉ parallelProcesses s → pid ∉ blockedQueue s →
  Nat.Even (length (blockedQueue s)) →
  ∃ s', isAlive pid s = Returns (bool_decide (pid ∈ runnableQueue s)) s' ∧
        (2 * length (blockedQueue s') = length (blockedQueue s))%nat ∧
        (∀ i : nat, blockedQueue s' !! i = blockedQueue s !! (2 * i)%nat) ∧
        parallelProcesses s' = parallelProcesses s ∧
        runnableQueue s' = runnableQueue s ∧
        finishedProcesses s' = finishedProcesses s.
Proof.
  intros Hp Hb He.
  destruct (isAlive_blocked_loop_absent pid (blockedQueue s) [] Hb He)
    as (kept & Hloop & Hlen & Hkept).
  destruct (isAlive_queues pid s [] ([] ++ kept) false Hp Hloop) as [l' ->].
  eexists. split; [done|]. simpl. by split_and!.
Qed.

Lemma isAlive_halves_blocked_queue_witness :
  (9 ∉ parallelProcesses sample) ∧ (9 ∉ blockedQueue sample) ∧
  Nat.Even (length (blockedQueue sample)) ∧
  ∃ s', isAlive 9 sample = Returns (bool_decide (9 ∈ runnableQueue sample)) s' ∧
        (2 * length (blockedQueue s') = length (blockedQueue sample))%nat ∧
        (∀ i : nat, blockedQueue s' !! i = blockedQueue sample !! (2 * i)%nat) ∧
        parallelProcesses s' = parallelProcesses sample ∧
        runnableQueue s' = runnableQueue sample ∧
        finishedProcesses s' = finishedProcesses sample.
Proof.
  assert (9 ∉ parallelProcesses sample) as Hp
    by (apply (bool_decide_unpack _); vm_compute; exact I).
  assert (9 ∉ blockedQueue sample) as Hb
    by (apply (bool_decide_unpack _); vm_compute; exact I).
  assert (Nat.Even (length (blockedQueue sample))) as He by (exists 1%nat; reflexivity).
  split; [exact Hp|]. split; [exact Hb|]. split; [exact He|].
  apply (isAlive_halves_blocked_queue 9 sample Hp Hb He).
Defined.
